(** * AthNLP 2024 retrieval-augmentation lab: the completed notebook cells

    A shallow embedding of the executable parts of
    [labs/athnlp24-rag-lab.ipynb]: the evaluation helpers [clean] and
    [eval_prediction] (cell 7), the accuracy computation (cells 9, 17, 23),
    the tag-based neighbour loop (cell 15) and the few-shot prompt loop
    (cell 16).

    Python values are modelled as the notebook uses them:
    - a [str] is a list of Unicode code points (a code point is an [N]),
    - a [dict] is an insertion-ordered association list with unique keys
      ([list(d.keys())[0]] is the key inserted first),
    - an exception is a constructor of [exn], and code that may raise
      returns a [result]. *)

From Stdlib Require Import String Ascii.
From Stdlib Require Import List NArith ZArith QArith Bool Arith Lia.
From Stdlib Require Import Permutation.
Import ListNotations.

Close Scope Q_scope.
Open Scope nat_scope.

(** ** Python strings, exceptions and dictionaries *)

Module Py.

Definition char := N.
Definition str := list char.

(** A literal without double quotes; quotes are added with [dq]. *)
Definition lit (s : string) : str :=
  map N_of_ascii (list_ascii_of_string s).

Definition dq : char := 34%N.
Definition nl : char := 10%N.
Definition sp : char := 32%N.

Definition char_eqb (a b : char) : bool := N.eqb a b.

Fixpoint str_eqb (a b : str) : bool :=
  match a, b with
  | [], [] => true
  | x :: a', y :: b' => char_eqb x y && str_eqb a' b'
  | _, _ => false
  end.

Inductive exn : Type :=
| IndexError
| KeyError
| AttributeError
| NotImplementedError
| TypeError
| ZeroDivisionError
| ValueError.

Inductive result (A : Type) : Type :=
| Ok (a : A)
| Raise (e : exn).

Arguments Ok {A} a.
Arguments Raise {A} e.

Definition bind {A B} (m : result A) (k : A -> result B) : result B :=
  match m with
  | Ok a => k a
  | Raise e => Raise e
  end.

Notation "x <- m ;; k" := (bind m (fun x => k))
  (at level 61, m at next level, right associativity).

(** Evaluation of a comprehension body over a list, left to right; the first
    exception aborts the comprehension. *)
Fixpoint mapM {A B} (f : A -> result B) (l : list A) : result (list B) :=
  match l with
  | [] => Ok []
  | a :: l' => b <- f a ;; bs <- mapM f l' ;; Ok (b :: bs)
  end.

(** [s[0]] and [s[-1]] on a sequence. *)
Definition first {A} (l : list A) : result A :=
  match l with
  | [] => Raise IndexError
  | a :: _ => Ok a
  end.

Fixpoint last_item {A} (l : list A) : result A :=
  match l with
  | [] => Raise IndexError
  | [a] => Ok a
  | _ :: l' => last_item l'
  end.

(** *** [str.split(sep)] for a non-empty separator

    The scan goes left to right over non-overlapping occurrences.  [skip]
    counts the characters of a matched separator that are still to be
    dropped, [cur] is the current piece in reverse. *)

Fixpoint starts_with (sep s : str) : bool :=
  match sep, s with
  | [], _ => true
  | _ :: _, [] => false
  | a :: sep', b :: s' => char_eqb a b && starts_with sep' s'
  end.

Fixpoint split_go (sep s : str) (skip : nat) (cur : str) : list str :=
  match s with
  | [] => [rev cur]
  | c :: s' =>
      match skip with
      | S k => split_go sep s' k cur
      | O =>
          if starts_with sep s
          then rev cur :: split_go sep s' (length sep - 1) []
          else split_go sep s' 0 (c :: cur)
      end
  end.

Definition split (s sep : str) : list str := split_go sep s 0 [].

(** [sep in s] *)
Fixpoint occurs (sep s : str) : bool :=
  starts_with sep s ||
  match s with
  | [] => false
  | _ :: s' => occurs sep s'
  end.

(** *** [str.strip()]

    Without an argument [strip] removes the characters for which
    [str.isspace] holds. *)
Definition isspace (c : char) : bool :=
  ((9 <=? c) && (c <=? 13) || (28 <=? c) && (c <=? 32)
   || (c =? 133) || (c =? 160) || (c =? 5760)
   || (8192 <=? c) && (c <=? 8202)
   || (c =? 8232) || (c =? 8233) || (c =? 8239) || (c =? 8287)
   || (c =? 12288))%N.

Fixpoint lstrip (s : str) : str :=
  match s with
  | [] => []
  | c :: s' => if isspace c then lstrip s' else s
  end.

Definition rstrip (s : str) : str := rev (lstrip (rev s)).

Definition strip (s : str) : str := rstrip (lstrip s).

(** *** [re.sub(cls+, repl, s)]

    Both patterns of the notebook are a character class under [+]: every
    maximal run of characters of the class is replaced by [repl].
    [in_run] records that the previous character belonged to a run already
    replaced. *)
Fixpoint sub_runs (cls : char -> bool) (repl : str) (in_run : bool) (s : str) : str :=
  match s with
  | [] => []
  | c :: s' =>
      if cls c
      then (if in_run then sub_runs cls repl true s'
            else repl ++ sub_runs cls repl true s')
      else c :: sub_runs cls repl false s'
  end.

Definition re_sub_class_plus (cls : char -> bool) (repl s : str) : str :=
  sub_runs cls repl false s.

(** *** Dictionaries *)

Definition dict (V : Type) := list (str * V).

Definition keys {V} (d : dict V) : list str := map fst d.

Fixpoint lookup {V} (d : dict V) (k : str) : option V :=
  match d with
  | [] => None
  | (k', v) :: d' => if str_eqb k' k then Some v else lookup d' k
  end.

(** [d[k]] *)
Definition getitem {V} (d : dict V) (k : str) : result V :=
  match lookup d k with
  | Some v => Ok v
  | None => Raise KeyError
  end.

(** [d[k] = v]: an existing key keeps its position. *)
Fixpoint setitem {V} (d : dict V) (k : str) (v : V) : dict V :=
  match d with
  | [] => [(k, v)]
  | (k', v') :: d' =>
      if str_eqb k' k then (k', v) :: d' else (k', v') :: setitem d' k v
  end.

(** [{key(i): value(i) for i in ixs}]: for each [i] the key is evaluated, then
    the value, then the entry is stored. *)
Fixpoint dict_comp {I V} (entry : I -> result (str * V)) (ixs : list I)
  (acc : dict V) : result (dict V) :=
  match ixs with
  | [] => Ok acc
  | i :: ixs' =>
      kv <- entry i ;; dict_comp entry ixs' (setitem acc (fst kv) (snd kv))
  end.

(** [l[i]] for a non-negative index. *)
Definition nth_item {A} (l : list A) (i : nat) : result A :=
  match nth_error l i with
  | Some a => Ok a
  | None => Raise IndexError
  end.

(** [a / b] on two non-negative [int]s.  Python rounds the quotient to the
    nearest [float]; the model keeps the exact rational, of which the values
    0 and 1 and the bounds 0 <= q <= 1 are preserved by that rounding. *)
Definition true_div (a b : nat) : result Q :=
  match b with
  | O => Raise ZeroDivisionError
  | S _ => Ok (Qmake (Z.of_nat a) (Pos.of_nat b))
  end.

(** The values a prediction mapping can hold. *)
#[local] Set Warnings "-register-all".
Inductive pyval : Type :=
| VStr (s : str)
| VList (l : list pyval)
| VInt (z : Z)
| VNone.

(** The receiver of [.split]: only a [str] has the method. *)
Definition str_method (v : pyval) : result str :=
  match v with
  | VStr s => Ok s
  | _ => Raise AttributeError
  end.

(** [v[0]] *)
Definition subscript0 (v : pyval) : result pyval :=
  match v with
  | VStr s => c <- first s ;; Ok (VStr [c])
  | VList l => first l
  | VInt _ | VNone => Raise TypeError
  end.

Definition wf_dict {V} (d : dict V) : Prop := NoDup (keys d).

End Py.

Import Py.

(** ** Cell 7: evaluation helpers *)

Module Eval.

Definition is_letter (c : char) : bool :=
  ((65 <=? c) && (c <=? 90) || (97 <=? c) && (c <=? 122))%N.

Definition is_period (c : char) : bool := (c =? 46)%N.

(** The class [[^A-Za-z.]]. *)
Definition special (c : char) : bool := negb (is_letter c || is_period c).

(** The class of the pattern [" +"]. *)
Definition is_blank (c : char) : bool := (c =? 32)%N.

(** [re.sub(" +", "", re.sub(r'[^A-Za-z.]+', ' ', answer))], with [re] the
    regular-expression module of the standard library. *)
Definition clean (answer : str) : str :=
  re_sub_class_plus is_blank [] (re_sub_class_plus special [sp] answer).

Definition rationale_marker : str :=
  [dq] ++ lit "step_by_step_thinking" ++ [dq] ++ lit ":".

Definition answer_marker : str :=
  [dq] ++ lit "answer_choice" ++ [dq] ++ lit ":".

(** [text.split(rationale_marker)[-1].split(answer_marker)[0].strip()] *)
Definition explanation_of (text : str) : result str :=
  tail <- last_item (split text rationale_marker) ;;
  head <- first (split tail answer_marker) ;;
  Ok (strip head).

(** [text.split(answer_marker)[-1].strip()], the segment handed to [clean]. *)
Definition answer_segment (text : str) : result str :=
  tail <- last_item (split text answer_marker) ;;
  Ok (strip tail).

(** [clean(text.split(answer_marker)[-1].strip())[0]] *)
Definition answer_of (text : str) : result str :=
  seg <- answer_segment text ;;
  c <- first (clean seg) ;;
  Ok [c].

(** The two comprehensions of the [str] branch. *)
Definition str_entry (f : str -> result str) (prediction : dict pyval)
  (qid : str) : result (str * str) :=
  v <- getitem prediction qid ;;
  text <- str_method v ;;
  r <- f text ;;
  Ok (qid, r).

Definition str_branch (prediction : dict pyval) : result (dict str * dict str) :=
  explanations <- dict_comp (str_entry explanation_of prediction) (keys prediction) [] ;;
  answers <- dict_comp (str_entry answer_of prediction) (keys prediction) [] ;;
  Ok (explanations, answers).

(** The two comprehensions of the [list] branch: [prediction[qid][0]] first. *)
Definition list_entry (f : str -> result str) (prediction : dict pyval)
  (qid : str) : result (str * str) :=
  v <- getitem prediction qid ;;
  v0 <- subscript0 v ;;
  text <- str_method v0 ;;
  r <- f text ;;
  Ok (qid, r).

Definition list_branch (prediction : dict pyval) : result (dict str * dict str) :=
  explanations <- dict_comp (list_entry explanation_of prediction) (keys prediction) [] ;;
  answers <- dict_comp (list_entry answer_of prediction) (keys prediction) [] ;;
  Ok (explanations, answers).

Definition eval_prediction (prediction : dict pyval)
  : result (dict str * dict str) :=
  k0 <- first (keys prediction) ;;
  v0 <- getitem prediction k0 ;;
  match v0 with
  | VStr _ => str_branch prediction
  | VList _ => list_branch prediction
  | VInt _ | VNone => Raise NotImplementedError
  end.

End Eval.

(** ** Cells 9, 17 and 23: accuracy against the gold labels *)

Module Score.

Import Eval.

(** [mapping = {'yes': 'A', 'no': 'B', 'maybe': 'C'}] *)
Definition mapping : dict str :=
  [(lit "yes", lit "A"); (lit "no", lit "B"); (lit "maybe", lit "C")].

(** [{qids[idx]: mapping[choices[idx]] for idx in range(len(qids))}] *)
Definition ground_truth (mapping : dict str) (qids choices : list str)
  : result (dict str) :=
  dict_comp
    (fun idx =>
       k <- nth_item qids idx ;;
       c <- nth_item choices idx ;;
       v <- getitem mapping c ;;
       Ok (k, v))
    (seq 0 (length qids)) [].

(** [[True if answers[qid] == ground_truth[qid] else False
      for qid in answers.keys()]] *)
Definition flags (answers ground_truth : dict str) : result (list bool) :=
  mapM
    (fun qid =>
       a <- getitem answers qid ;;
       g <- getitem ground_truth qid ;;
       Ok (if str_eqb a g then true else false))
    (keys answers).

(** [flags.count(True) / len(qids)] *)
Definition accuracy (answers ground_truth : dict str) (qids : list str)
  : result Q :=
  fl <- flags answers ground_truth ;;
  true_div (count_occ bool_dec fl true) (length qids).

(** The whole cell: parse, build the gold mapping, score. *)
Definition evaluate (predicted : dict pyval) (mapping : dict str)
  (qids choices : list str) : result Q :=
  parsed <- eval_prediction predicted ;;
  gold <- ground_truth mapping qids choices ;;
  accuracy (snd parsed) gold qids.

End Score.

(** ** Cell 15: demonstrators retrieved by shared tags *)

Module Retrieval.

(** One batch of the data loaders ([batch_size=1]), with the singleton
    wrappers that [question[0]], [c[0]] and [qid[0]] remove already taken
    off.  The fields [options] and [answers] are bound by the loops but not
    read by them. *)
Record item : Type := {
  question : str;
  concepts : list str;
  qid : str
}.

(** [list(set(l))].  The iteration order of a Python set of strings is
    not fixed by the language; an instance supplies one. *)
Class SetOrder : Type := {
  list_of_set : list str -> list str;
  list_of_set_NoDup : forall l, NoDup (list_of_set l);
  list_of_set_In : forall l x, In x (list_of_set l) <-> In x l
}.

(** [bool(set(a) & set(b))] *)
Definition sets_meet (a b : list str) : bool :=
  existsb (fun x => existsb (str_eqb x) b) a.

Section Loop.

Context {order : SetOrder}.

(** One round of the inner loop for the test item [t] and the train item
    [neig].  The condition reads [concepts] of the test item on both sides
    of [&]; [concepts_neig] is bound by the loop header and not used. *)
Definition inner_step (t : item) (neighbors : dict (list str)) (neig : item)
  : result (dict (list str)) :=
  neighbors1 <-
    (if sets_meet (concepts t) (concepts t)
     then l <- getitem neighbors (qid t) ;;
          Ok (setitem neighbors (qid t) (l ++ [qid neig]))
     else Ok neighbors) ;;
  l1 <- getitem neighbors1 (qid t) ;;
  Ok (setitem neighbors1 (qid t) (list_of_set l1)).

Fixpoint inner_loop (t : item) (train : list item) (neighbors : dict (list str))
  : result (dict (list str)) :=
  match train with
  | [] => Ok neighbors
  | neig :: rest =>
      neighbors' <- inner_step t neighbors neig ;;
      inner_loop t rest neighbors'
  end.

Fixpoint outer_loop (test train : list item) (neighbors : dict (list str))
  : result (dict (list str)) :=
  match test with
  | [] => Ok neighbors
  | t :: rest =>
      neighbors' <- inner_loop t train (setitem neighbors (qid t) []) ;;
      outer_loop rest train neighbors'
  end.

(** The cell: [neighbors = {}] and the two loops. *)
Definition tag_neighbors (test train : list item) : result (dict (list str)) :=
  outer_loop test train [].

End Loop.

(** What the retrieval is specified to keep: the train items whose tag set
    meets the query's. *)
Definition shares_tag (t neig : item) : bool :=
  sets_meet (concepts t) (concepts neig).

End Retrieval.

(** ** Cell 16: few-shot prompt from sampled demonstrators *)

Module FewShot.

(** The fields of [pubmedqa_train_data.data.data[shot]] read by the cell. *)
Record entry : Type := {
  QUESTION : str;
  LONG_ANSWER : str;
  final_decision : str
}.

(** [random.sample(population, k)] of the standard library.  [rng i] is the
    raw outcome of the [i]-th draw, reduced below the bound as [_randbelow]
    does.  The guard comes before any draw; the selection is the pool
    variant: the drawn slot is filled with the last live element. *)
Definition take_slot {A} (pool : list A) (j : nat) : option (A * list A) :=
  match nth_error pool j, rev pool with
  | Some x, lst :: _ =>
      Some (x, removelast (firstn j pool ++ lst :: skipn (S j) pool))
  | _, _ => None
  end.

Fixpoint sample_pool {A} (rng : nat -> nat) (i : nat) (pool : list A) (k : nat)
  : list A :=
  match k with
  | O => []
  | S k' =>
      match take_slot pool (rng i mod length pool) with
      | Some (x, pool') => x :: sample_pool rng (S i) pool' k'
      | None => []
      end
  end.

Definition sample {A} (rng : nat -> nat) (population : list A) (k : nat)
  : result (list A) :=
  if k <=? length population
  then Ok (sample_pool rng 0 population k)
  else Raise ValueError.

(** The three string constants of the demonstration block. *)
Definition open_block : str :=
  lit " {" ++ [dq] ++ lit "step_by_step_thinking" ++ [dq] ++ lit ": " ++ [dq].

Definition mid_block : str :=
  [dq] ++ lit "answer_choice" ++ [dq] ++ lit ": " ++ [dq].

Definition close_block : str :=
  [dq] ++ lit "}" ++ [nl; sp; nl].

(** The right-hand side of [query += ...] for one shot. *)
Definition demonstration (data : dict entry) (mapping : dict str) (shot : str)
  : result str :=
  e <- getitem data shot ;;
  symbol <- getitem mapping (final_decision e) ;;
  Ok (QUESTION e ++ open_block ++ LONG_ANSWER e ++ mid_block ++ symbol
      ++ close_block).

(** [for shot in shots_selected: query += ...] *)
Fixpoint add_shots (data : dict entry) (mapping : dict str)
  (shots_selected : list str) (query : str) : result str :=
  match shots_selected with
  | [] => Ok query
  | shot :: rest =>
      block <- demonstration data mapping shot ;;
      add_shots data mapping rest (query ++ block)
  end.

(** [query = ""], the loop, [query += question[0]]. *)
Definition build_query (data : dict entry) (mapping : dict str)
  (shots_selected : list str) (question : str) : result str :=
  query <- add_shots data mapping shots_selected [] ;;
  Ok (query ++ question).

(** One round of the cell's loop up to the assembled [query]. *)
Definition few_shot_query (rng : nat -> nat) (neighbors : dict (list str))
  (data : dict entry) (mapping : dict str) (num_shots : nat)
  (t : Retrieval.item) : result str :=
  population <- getitem neighbors (Retrieval.qid t) ;;
  shots_selected <- sample rng population num_shots ;;
  build_query data mapping shots_selected (Retrieval.question t).

End FewShot.

(** ** The statements of the specification, as definitions *)

Module Spec.

Import Eval Score Retrieval FewShot.

(** The characters [clean] lets through. *)
Definition kept (c : char) : bool := is_letter c || is_period c.

(** The normalisation as the specification words it: first every character
    outside letters and periods is stripped, then every run of whitespace is
    collapsed to one space. *)
Definition strip_outside_letters_period (s : str) : str := filter kept s.

Fixpoint collapse_whitespace (in_run : bool) (s : str) : str :=
  match s with
  | [] => []
  | c :: s' =>
      if isspace c
      then (if in_run then collapse_whitespace true s'
            else sp :: collapse_whitespace true s')
      else c :: collapse_whitespace false s'
  end.

Definition clean_spec (s : str) : str :=
  collapse_whitespace false (strip_outside_letters_period s).

(** No two spaces in a row. *)
Fixpoint single_spaced (s : str) : bool :=
  match s with
  | a :: (b :: _) as s' => negb (is_blank a && is_blank b) && single_spaced s'
  | _ => true
  end.

(** A prediction mapping that holds generation texts only. *)
Definition str_dict (d : dict str) : dict pyval :=
  map (fun kv => (fst kv, VStr (snd kv))) d.

(** The text of the stub generator:
    an object with the rationale [ok] and the answer choice [choice]. *)
Definition generation (choice : str) : str :=
  lit "{" ++ [dq] ++ lit "step_by_step_thinking" ++ [dq] ++ lit ": "
  ++ [dq] ++ lit "ok" ++ [dq] ++ lit "," ++ [dq] ++ lit "answer_choice"
  ++ [dq] ++ lit ": " ++ [dq] ++ choice ++ [dq] ++ lit "}".

(** An id is answered correctly when the prediction for it equals the gold
    symbol; an id without a prediction is not. *)
Definition correct (predictions gold : dict str) (id : str) : bool :=
  match lookup predictions id, lookup gold id with
  | Some a, Some g => str_eqb a g
  | _, _ => false
  end.


(** A set order to run the retrieval with: first occurrence kept last, as
    [nodup] lists them. *)
Definition str_dec : forall a b : str, {a = b} + {a <> b} :=
  list_eq_dec N.eq_dec.

#[export] Instance nodup_order : SetOrder := {
  list_of_set := nodup str_dec;
  list_of_set_NoDup := NoDup_nodup str_dec;
  list_of_set_In := fun l x => nodup_In str_dec l x
}.

(** The retrieval scenario: a query tagged [diabetes], a train item [A]
    tagged [diabetes] and [insulin], a train item [B] tagged [cancer]. *)
Definition query : item :=
  {| question := lit "Q"; concepts := [lit "diabetes"]; qid := lit "q" |}.

Definition item_A : item :=
  {| question := lit "QA"; concepts := [lit "diabetes"; lit "insulin"];
     qid := lit "A" |}.

Definition item_B : item :=
  {| question := lit "QB"; concepts := [lit "cancer"]; qid := lit "B" |}.

End Spec.

Import Spec.

(** ** Cell 14: the tags of the train and test items *)

Module Tags.

Import Retrieval.

Section Unique.

Context {order : SetOrder}.

(** [for instance in ...:
       concepts_unique = concepts_unique + [concept for concept in instance]] *)
Fixpoint gather (instances : list (list str)) (concepts_unique : list str)
  : list str :=
  match instances with
  | [] => concepts_unique
  | instance :: rest =>
      gather rest (concepts_unique ++ map (fun concept => concept) instance)
  end.

(** [concepts_unique = []], the loop over
    [pubmedqa_train_data.concepts + pubmedqa_test_data.concepts], and
    [concepts_unique = list(set(concepts_unique))]. *)
Definition concepts_unique (train_concepts test_concepts : list (list str))
  : list str :=
  list_of_set (gather (train_concepts ++ test_concepts) []).

End Unique.

End Tags.

(** ** Cells 4, 5, 16 and 22: the loops that collect the answers *)

Module Predict.

Import Retrieval.

Section Generator.

(** The text (or list of texts) the external model returns for the [i]-th
    batch of the test loader. *)
Variable answer : nat -> item -> pyval.

(** [for i, (..., qid) in enumerate(test_loader, 0):
       predicted[qid[0]] = answer] *)
Fixpoint predict_loop (i : nat) (tests : list item) (predicted : dict pyval)
  : dict pyval :=
  match tests with
  | [] => predicted
  | t :: rest =>
      predict_loop (S i) rest (setitem predicted (qid t) (answer i t))
  end.

(** [predicted = {}] and the loop. *)
Definition predict (tests : list item) : dict pyval :=
  predict_loop 0 tests [].

(** Cell 4 stores an answer under [if i == 0] only. *)
Fixpoint demo_loop (i : nat) (tests : list item) (predicted : dict pyval)
  : dict pyval :=
  match tests with
  | [] => predicted
  | t :: rest =>
      demo_loop (S i) rest
        (if i =? 0 then setitem predicted (qid t) (answer i t) else predicted)
  end.

Definition predict_demo (tests : list item) : dict pyval :=
  demo_loop 0 tests [].

End Generator.

(** The closing expression of the cells,
    [predicted[list(predicted.keys())[0]]]. *)
Definition first_entry {V} (predicted : dict V) : result V :=
  k <- first (keys predicted) ;; getitem predicted k.

End Predict.

(** ** Notions used to state properties of the string operations *)

Module Text.

(** [sep.join(pieces)] *)
Fixpoint join (sep : str) (pieces : list str) : str :=
  match pieces with
  | [] => []
  | [p] => p
  | p :: rest => p ++ sep ++ join sep rest
  end.

(** [sep] has a border of length [m]: its first [m] characters are its
    last [m]. *)
Definition border (sep : str) (m : nat) : bool :=
  str_eqb (firstn m sep) (skipn (length sep - m) sep).

(** No proper border: two occurrences of [sep] cannot overlap. *)
Definition unbordered (sep : str) : bool :=
  forallb (fun m => negb (border sep m)) (seq 1 (length sep - 1)).

(** The first character of [s] that [clean] keeps. *)
Definition first_kept (s : str) : option char := find Spec.kept s.

End Text.

(** ** Mappings of candidate lists *)

Module Candidates.

(** A prediction mapping whose values are non-empty lists of candidate
    generations that begin with a text: the first candidate and the rest. *)
Definition list_dict (d : dict (str * list pyval)) : dict pyval :=
  map (fun kv => (fst kv, VList (VStr (fst (snd kv)) :: snd (snd kv)))) d.

(** The first candidates alone. *)
Definition heads (d : dict (str * list pyval)) : dict str :=
  map (fun kv => (fst kv, fst (snd kv))) d.

End Candidates.

(** * Properties *)

Import Eval Score Retrieval FewShot.

(** ** Strings and dictionaries *)

Lemma str_eqb_eq (a b : str) : str_eqb a b = true <-> a = b.
Proof.
  revert b; induction a as [|x a IH]; intros [|y b]; simpl;
    try (split; [discriminate | discriminate]); try tauto.
  rewrite andb_true_iff, IH. unfold char_eqb. rewrite N.eqb_eq.
  split; [intros [-> ->]; reflexivity | intros H; inversion H; auto].
Qed.

Lemma str_eqb_refl (a : str) : str_eqb a a = true.
Proof. apply str_eqb_eq; reflexivity. Qed.

Lemma str_eqb_neq (a b : str) : str_eqb a b = false <-> a <> b.
Proof.
  rewrite <- str_eqb_eq. destruct (str_eqb a b); split; congruence.
Qed.

Lemma lookup_None_iff {V} (d : dict V) (k : str) :
  lookup d k = None <-> ~ In k (keys d).
Proof.
  induction d as [|[k' v] d IH]; simpl.
  - tauto.
  - destruct (str_eqb k' k) eqn:E.
    + apply str_eqb_eq in E. split; [discriminate | intros H; exfalso; auto].
    + apply str_eqb_neq in E. rewrite IH. tauto.
Qed.

Lemma lookup_Some_In {V} (d : dict V) (k : str) (v : V) :
  lookup d k = Some v -> In k (keys d).
Proof.
  intros H. destruct (in_dec (list_eq_dec N.eq_dec) k (keys d)) as [i|n]; auto.
  apply lookup_None_iff in n. congruence.
Qed.

Lemma In_keys_lookup {V} (d : dict V) (k : str) :
  In k (keys d) -> exists v, lookup d k = Some v.
Proof.
  intros H. destruct (lookup d k) eqn:E; eauto.
  apply lookup_None_iff in E. contradiction.
Qed.

Lemma lookup_setitem_same {V} (d : dict V) (k : str) (v : V) :
  lookup (setitem d k v) k = Some v.
Proof.
  induction d as [|[k' v'] d IH]; simpl.
  - now rewrite str_eqb_refl.
  - destruct (str_eqb k' k) eqn:E; simpl; rewrite E; auto.
Qed.

Lemma lookup_setitem_other {V} (d : dict V) (k k0 : str) (v : V) :
  k0 <> k -> lookup (setitem d k v) k0 = lookup d k0.
Proof.
  intros Hne. induction d as [|[k' v'] d IH]; simpl.
  - assert (str_eqb k k0 = false) as -> by (apply str_eqb_neq; congruence).
    reflexivity.
  - destruct (str_eqb k' k) eqn:E; simpl.
    + apply str_eqb_eq in E; subst k'.
      assert (str_eqb k k0 = false) as -> by (apply str_eqb_neq; congruence).
      reflexivity.
    + destruct (str_eqb k' k0); auto.
Qed.

(** ** [clean] *)

Lemma kept_not_blank (c : char) : kept c = true -> is_blank c = false.
Proof.
  unfold kept, is_letter, is_period, is_blank. intros H.
  apply N.eqb_neq. intros ->. vm_compute in H. discriminate.
Qed.

Lemma kept_not_space (c : char) : kept c = true -> isspace c = false.
Proof.
  unfold kept, is_letter, is_period, isspace. intros H.
  repeat rewrite orb_true_iff in H. repeat rewrite andb_true_iff in H.
  repeat rewrite N.leb_le in H. rewrite N.eqb_eq in H.
  repeat rewrite orb_false_iff. repeat rewrite andb_false_iff.
  repeat rewrite N.leb_gt. repeat rewrite N.eqb_neq. lia.
Qed.

Lemma special_kept (c : char) : special c = negb (kept c).
Proof. reflexivity. Qed.

(** The two substitutions together delete exactly the characters outside
    letters and periods, whatever run either scan is in. *)
Lemma sub_runs_clean (s : str) (r1 r2 : bool) :
  sub_runs is_blank [] r2 (sub_runs special [sp] r1 s) = filter kept s.
Proof.
  revert r1 r2; induction s as [|c s IH]; intros r1 r2; simpl; auto.
  rewrite special_kept. destruct (kept c) eqn:K; simpl.
  - rewrite (kept_not_blank _ K). f_equal. apply IH.
  - destruct r1; simpl; [apply IH|].
    destruct r2; apply IH.
Qed.

Lemma clean_filter (s : str) : clean s = filter kept s.
Proof. apply sub_runs_clean. Qed.

Lemma filter_kept_idem (s : str) : filter kept (filter kept s) = filter kept s.
Proof.
  induction s as [|c s IH]; simpl; auto.
  destruct (kept c) eqn:K; simpl; rewrite ?K, IH; reflexivity.
Qed.

Lemma collapse_no_whitespace (s : str) (r : bool) :
  Forall (fun c => kept c = true) s -> collapse_whitespace r s = s.
Proof.
  intros H; revert r; induction H as [|c s K _ IH]; intros r; simpl; auto.
  rewrite (kept_not_space _ K). f_equal. apply IH.
Qed.

Lemma clean_all_kept (s : str) : Forall (fun c => kept c = true) (clean s).
Proof.
  rewrite clean_filter. apply Forall_forall. intros c H.
  apply filter_In in H. tauto.
Qed.

Lemma all_kept_single_spaced (s : str) :
  Forall (fun c => kept c = true) s -> single_spaced s = true.
Proof.
  induction 1 as [|c s K H IH]; auto.
  destruct s as [|b s']; auto.
  change (negb (is_blank c && is_blank b) && single_spaced (b :: s') = true).
  rewrite (kept_not_blank _ K), IH. reflexivity.
Qed.

(** C2. For every input string, [clean] returns the string obtained by
    stripping every character outside letters and periods and then
    collapsing consecutive whitespace; the result contains only letters,
    periods and single spaces.  (No whitespace survives the stripping, so
    the result in fact holds letters and periods only, see
    [clean_has_no_blank].) *)
Theorem clean_strips_then_collapses (s : str) :
  clean s = clean_spec s
  /\ Forall (fun c => is_letter c = true \/ is_period c = true
                      \/ is_blank c = true) (clean s)
  /\ single_spaced (clean s) = true.
Proof.
  pose proof (clean_all_kept s) as K. split; [|split].
  - unfold clean_spec, strip_outside_letters_period.
    rewrite collapse_no_whitespace; [apply clean_filter|].
    rewrite <- clean_filter. exact K.
  - eapply Forall_impl; [|exact K]. intros c Hc. unfold kept in Hc.
    apply orb_true_iff in Hc. tauto.
  - apply all_kept_single_spaced, K.
Qed.

Lemma clean_has_no_blank (s : str) : Forall (fun c => is_blank c = false) (clean s).
Proof.
  eapply Forall_impl; [|apply clean_all_kept]. apply kept_not_blank.
Qed.

Example clean_risk_of_bias :
  clean (lit "RIS(K)! of.. Bias") = lit "RISKof..Bias".
Proof. reflexivity. Qed.

(** C7. [clean] is idempotent, and the first character of the result (the
    [[0]] the parser takes, or the [IndexError] on an empty result) is the
    same when [clean] is applied again. *)
Theorem clean_idempotent (x : str) :
  clean (clean x) = clean x
  /\ first (clean (clean x)) = first (clean x).
Proof.
  assert (clean (clean x) = clean x) as E
    by (rewrite !clean_filter; apply filter_kept_idem).
  split; [exact E | now rewrite E].
Qed.

(** ** The result monad over comprehensions *)

Lemma mapM_Ok {A B} (f : A -> result B) (g : A -> B) (l : list A) :
  (forall a, In a l -> f a = Ok (g a)) -> mapM f l = Ok (map g l).
Proof.
  induction l as [|a l IH]; intros H; simpl; auto.
  rewrite (H a (or_introl eq_refl)). simpl.
  rewrite IH by (intros; apply H; right; assumption). reflexivity.
Qed.

(** When every body either returns or raises [e], and one raises, the
    comprehension raises [e]. *)
Lemma mapM_Raise {A B} (f : A -> result B) (e : exn) (l : list A) (a : A) :
  (forall x, In x l -> f x = Raise e \/ exists b, f x = Ok b) ->
  In a l -> f a = Raise e -> mapM f l = Raise e.
Proof.
  induction l as [|x l IH]; intros Hall Hin Ha; [destruct Hin|].
  simpl. destruct (Hall x (or_introl eq_refl)) as [E|[b E]]; rewrite E; simpl; auto.
  destruct Hin as [->|Hin]; [congruence|].
  rewrite IH; auto. intros; apply Hall; right; assumption.
Qed.

Lemma dict_comp_Raise {I V} (entry : I -> result (str * V)) (e : exn)
  (l : list I) (i : I) (acc : dict V) :
  (forall x, In x l -> entry x = Raise e \/ exists kv, entry x = Ok kv) ->
  In i l -> entry i = Raise e -> dict_comp entry l acc = Raise e.
Proof.
  revert acc; induction l as [|x l IH]; intros acc Hall Hin Hi; [destruct Hin|].
  simpl. destruct (Hall x (or_introl eq_refl)) as [E|[kv E]]; rewrite E; simpl; auto.
  destruct Hin as [->|Hin]; [congruence|].
  apply IH; auto. intros; apply Hall; right; assumption.
Qed.


(** ** Accuracy *)

Lemma count_true_map {A} (p : A -> bool) (l : list A) :
  count_occ bool_dec (map p l) true = length (filter p l).
Proof.
  induction l as [|a l IH]; simpl; auto.
  destruct (p a); simpl; [destruct (bool_dec true true); congruence|].
  destruct (bool_dec false true); congruence.
Qed.

Lemma flags_covered (answers gold : dict str) :
  incl (keys answers) (keys gold) ->
  flags answers gold = Ok (map (correct answers gold) (keys answers)).
Proof.
  intros Hincl. unfold flags. apply mapM_Ok. intros k Hk.
  destruct (In_keys_lookup answers k Hk) as [a Ea].
  destruct (In_keys_lookup gold k (Hincl k Hk)) as [g Eg].
  unfold getitem, correct. rewrite Ea, Eg. simpl. now destruct (str_eqb a g).
Qed.


Lemma filter_length_le {A} (p : A -> bool) (l : list A) :
  length (filter p l) <= length l.
Proof.
  induction l as [|a l IH]; simpl; auto. destruct (p a); simpl; lia.
Qed.


Lemma filter_none {A} (p : A -> bool) (l : list A) :
  (forall a, In a l -> p a = false) -> filter p l = [].
Proof.
  induction l as [|a l IH]; intros H; simpl; auto.
  rewrite (H a (or_introl eq_refl)), IH; auto. intros; apply H; right; auto.
Qed.

Lemma Zpos_of_nat_succ (n : nat) : Z.pos (Pos.of_nat (S n)) = Z.of_nat (S n).
Proof. rewrite <- Pos.of_nat_succ, Zpos_P_of_succ_nat. lia. Qed.

Lemma accuracy_covered (answers gold : dict str) (qids : list str) :
  incl (keys answers) (keys gold) -> qids <> [] ->
  accuracy answers gold qids
  = Ok (Qmake (Z.of_nat (length (filter (correct answers gold) (keys answers))))
              (Pos.of_nat (length qids))).
Proof.
  intros Hincl Hq. unfold accuracy. rewrite (flags_covered answers gold Hincl). simpl.
  rewrite count_true_map. destruct qids; [congruence|]. reflexivity.
Qed.

Lemma keys_setitem_fresh {V} (d : dict V) (k : str) (v : V) :
  ~ In k (keys d) -> keys (setitem d k v) = keys d ++ [k].
Proof.
  induction d as [|[k' v'] d IH]; intros H; simpl; auto.
  simpl in H. destruct (str_eqb k' k) eqn:E.
  - apply str_eqb_eq in E. tauto.
  - simpl. f_equal. apply IH. tauto.
Qed.

(** A comprehension over distinct fresh keys lists them in iteration order. *)
Lemma dict_comp_keys {I V} (entry : I -> result (str * V)) (key : I -> str)
  (ixs : list I) :
  (forall i kv, In i ixs -> entry i = Ok kv -> fst kv = key i) ->
  forall (acc d : dict V),
    dict_comp entry ixs acc = Ok d ->
    NoDup (keys acc ++ map key ixs) ->
    keys d = keys acc ++ map key ixs.
Proof.
  induction ixs as [|i ixs IH]; intros Hkey acc d Hd Hnd; simpl in *.
  - injection Hd as <-. now rewrite app_nil_r.
  - destruct (entry i) as [kv|] eqn:E; [|discriminate]. simpl in Hd.
    rewrite (Hkey i kv (or_introl eq_refl) E) in Hd.
    assert (~ In (key i) (keys acc)) as Hfresh.
    { intros Hin. apply NoDup_remove_2 in Hnd. apply Hnd, in_or_app. now left. }
    apply IH in Hd.
    + rewrite Hd, (keys_setitem_fresh acc (key i) (snd kv) Hfresh).
      now rewrite <- app_assoc.
    + intros j kv' Hj. apply Hkey. now right.
    + rewrite (keys_setitem_fresh acc (key i) (snd kv) Hfresh).
      now rewrite <- app_assoc.
Qed.

Lemma map_nth_seq (l : list str) (d : str) (n : nat) :
  map (fun idx => nth (idx - n) l d) (seq n (length l)) = l.
Proof.
  revert n; induction l as [|a l IH]; intros n; simpl; auto.
  rewrite Nat.sub_diag. f_equal.
  rewrite <- (IH (S n)) at 2. apply map_ext_in. intros idx Hidx.
  apply in_seq in Hidx. destruct (idx - n) as [|m] eqn:E; [lia|].
  f_equal. lia.
Qed.

(** With distinct ids the gold mapping of the cell has exactly the ids of
    [qids], in order, so [len(qids)] is the number of gold ids. *)
Lemma ground_truth_keys (mapping : dict str) (qids choices : list str)
  (gold : dict str) :
  NoDup qids -> ground_truth mapping qids choices = Ok gold ->
  keys gold = qids.
Proof.
  intros Hnd Hg. unfold ground_truth in Hg.
  apply dict_comp_keys with (key := fun idx => nth (idx - 0) qids []) in Hg.
  - now rewrite map_nth_seq in Hg.
  - intros idx kv _. unfold nth_item.
    destruct (nth_error qids idx) as [k|] eqn:E; simpl; [|intros [=]].
    destruct (nth_error choices idx) as [c|]; simpl; [|intros [=]].
    destruct (getitem mapping c) as [v|]; simpl; [|intros [=]].
    intros [= H]. subst kv. simpl. rewrite Nat.sub_0_r.
    symmetry. now apply nth_error_nth.
  - simpl. now rewrite map_nth_seq.
Qed.


(** C10. The accuracy expression walks the ids of the predictions and
    indexes the gold mapping by each: an id that is predicted but absent
    from gold raises [KeyError], whatever the other entries are, while ids
    that are only missing from the predictions do not raise. *)
Theorem accuracy_indexes_gold_by_predicted_ids
  (answers gold : dict str) (qids : list str) :
  (forall k, In k (keys answers) -> lookup gold k = None ->
             accuracy answers gold qids = Raise KeyError)
  /\ (incl (keys answers) (keys gold) -> qids <> [] ->
      exists q, accuracy answers gold qids = Ok q).
Proof.
  split.
  - intros k Hk Hg. unfold accuracy, flags.
    erewrite mapM_Raise with (e := KeyError) (a := k); auto.
    + intros x Hx. destruct (In_keys_lookup answers x Hx) as [a Ea].
      unfold getitem. rewrite Ea. simpl.
      destruct (lookup gold x); simpl; eauto.
    + destruct (In_keys_lookup answers k Hk) as [a Ea].
      unfold getitem. rewrite Ea, Hg. reflexivity.
  - intros Hincl Hq. rewrite (accuracy_covered answers gold qids Hincl Hq). eauto.
Qed.

(** ** The parser *)

Lemma split_go_nonempty (sep s : str) (skip : nat) (cur : str) :
  split_go sep s skip cur <> [].
Proof.
  revert skip cur; induction s as [|c s IH]; intros skip cur; simpl.
  - discriminate.
  - destruct skip; [|apply IH].
    destruct (starts_with sep (c :: s)); [discriminate | apply IH].
Qed.

Lemma last_item_nonempty {A} (l : list A) :
  l <> [] -> exists a, last_item l = Ok a.
Proof.
  induction l as [|a l IH]; [congruence|]. intros _.
  destruct l as [|b l]; simpl; eauto. apply IH. discriminate.
Qed.

Lemma first_nonempty {A} (l : list A) : l <> [] -> exists a, first l = Ok a.
Proof. destruct l; [congruence | simpl; eauto]. Qed.

(** A text in which the separator does not occur is not split. *)
Lemma split_go_absent (sep s cur : str) :
  occurs sep s = false -> split_go sep s 0 cur = [rev cur ++ s].
Proof.
  revert cur; induction s as [|c s IH]; intros cur H.
  - simpl. now rewrite app_nil_r.
  - simpl in H. apply orb_false_iff in H. destruct H as [H1 H2].
    change (split_go sep (c :: s) 0 cur)
      with (if starts_with sep (c :: s)
            then rev cur :: split_go sep s (length sep - 1) []
            else split_go sep s 0 (c :: cur)).
    rewrite H1, (IH (c :: cur) H2). simpl. now rewrite <- app_assoc.
Qed.

Lemma split_absent (s sep : str) : occurs sep s = false -> split s sep = [s].
Proof. intros H. unfold split. now rewrite (split_go_absent sep s [] H). Qed.

Lemma explanation_of_total (text : str) : exists e, explanation_of text = Ok e.
Proof.
  unfold explanation_of.
  destruct (last_item_nonempty (split text rationale_marker)
              (split_go_nonempty _ _ _ _)) as [tail ->]. simpl.
  destruct (first_nonempty (split tail answer_marker)
              (split_go_nonempty _ _ _ _)) as [head ->]. simpl. eauto.
Qed.

Lemma answer_segment_total (text : str) : exists seg, answer_segment text = Ok seg.
Proof.
  unfold answer_segment.
  destruct (last_item_nonempty (split text answer_marker)
              (split_go_nonempty _ _ _ _)) as [tail ->]. simpl. eauto.
Qed.

(** [answer_of] returns the first character of the cleaned segment or raises
    [IndexError] when there is none. *)
Lemma answer_of_cases (text seg : str) :
  answer_segment text = Ok seg ->
  answer_of text = match clean seg with
                   | [] => Raise IndexError
                   | c :: _ => Ok [c]
                   end.
Proof.
  intros H. unfold answer_of. rewrite H. simpl. now destruct (clean seg).
Qed.

Lemma keys_str_dict (d : dict str) : keys (str_dict d) = keys d.
Proof.
  unfold keys, str_dict. rewrite map_map. reflexivity.
Qed.

Lemma lookup_str_dict (d : dict str) (k : str) :
  lookup (str_dict d) k = option_map VStr (lookup d k).
Proof.
  induction d as [|[k' v] d IH]; simpl; auto.
  destruct (str_eqb k' k); auto.
Qed.

Lemma eval_prediction_single_str (qid text : str) :
  eval_prediction [(qid, VStr text)]
  = (e <- explanation_of text ;; a <- answer_of text ;;
     Ok ([(qid, e)], [(qid, a)])).
Proof.
  unfold eval_prediction, str_branch, str_entry, getitem. simpl.
  rewrite str_eqb_refl. simpl.
  destruct (explanation_of text); simpl; auto.
  destruct (answer_of text); reflexivity.
Qed.

Lemma eval_prediction_single_list (qid text : str) (more : list pyval) :
  eval_prediction [(qid, VList (VStr text :: more))]
  = (e <- explanation_of text ;; a <- answer_of text ;;
     Ok ([(qid, e)], [(qid, a)])).
Proof.
  unfold eval_prediction, list_branch, list_entry, getitem. simpl.
  rewrite str_eqb_refl. simpl.
  destruct (explanation_of text); simpl; auto.
  destruct (answer_of text); reflexivity.
Qed.

Lemma ground_truth_single (qid : str) :
  ground_truth mapping [qid] [lit "yes"] = Ok [(qid, lit "A")].
Proof. reflexivity. Qed.

Lemma accuracy_single (qid a g : str) :
  accuracy [(qid, a)] [(qid, g)] [qid]
  = Ok (Qmake (if str_eqb a g then 1 else 0) 1).
Proof.
  unfold accuracy, flags, getitem. simpl. rewrite str_eqb_refl. simpl.
  destruct (str_eqb a g); reflexivity.
Qed.

(** C3. One test item whose gold label is [yes], under the mapping
    yes:A, no:B, maybe:C.  When the generator returns the object text with
    answer choice A, the parser extracts the symbol A and the accuracy is 1;
    with answer choice B the accuracy is 0.  The same holds when the
    generator hands the text back inside a list. *)
Theorem single_item_end_to_end (qid : str) :
  (exists explanations,
      eval_prediction [(qid, VStr (generation (lit "A")))]
      = Ok (explanations, [(qid, lit "A")]))
  /\ evaluate [(qid, VStr (generation (lit "A")))] mapping [qid] [lit "yes"]
     = Ok 1%Q
  /\ evaluate [(qid, VStr (generation (lit "B")))] mapping [qid] [lit "yes"]
     = Ok 0%Q
  /\ evaluate [(qid, VList [VStr (generation (lit "A"))])] mapping [qid]
       [lit "yes"] = Ok 1%Q
  /\ evaluate [(qid, VList [VStr (generation (lit "B"))])] mapping [qid]
       [lit "yes"] = Ok 0%Q.
Proof.
  assert (explanation_of (generation (lit "A"))
          = Ok ([dq] ++ lit "ok" ++ [dq] ++ lit ",")) as EA by reflexivity.
  assert (explanation_of (generation (lit "B"))
          = Ok ([dq] ++ lit "ok" ++ [dq] ++ lit ",")) as EB by reflexivity.
  assert (answer_of (generation (lit "A")) = Ok (lit "A")) as AA by reflexivity.
  assert (answer_of (generation (lit "B")) = Ok (lit "B")) as AB by reflexivity.
  unfold evaluate.
  rewrite !eval_prediction_single_str, !eval_prediction_single_list.
  rewrite EA, EB, AA, AB. cbn [bind snd].
  rewrite ground_truth_single. cbn [bind]. rewrite !accuracy_single.
  repeat split; eauto.
Qed.


Lemma eval_prediction_str_dict (d : dict str) :
  d <> [] -> eval_prediction (str_dict d) = str_branch (str_dict d).
Proof.
  destruct d as [|[k0 t0] rest]; [congruence|]. intros _.
  unfold eval_prediction, getitem. simpl. rewrite str_eqb_refl. reflexivity.
Qed.



(** C9. The branch is fixed by the value under the first key alone and is
    then applied to every entry: a first value that is a string sends the
    whole mapping through the string branch, a first value that is a list
    sends it through the list branch.  A later list under a string first
    value is therefore handed to [.split] as it is, which raises
    [AttributeError]. *)
Theorem branch_fixed_by_first_value (k0 : str) (rest : dict pyval) :
  (forall s, eval_prediction ((k0, VStr s) :: rest)
             = str_branch ((k0, VStr s) :: rest))
  /\ (forall l, eval_prediction ((k0, VList l) :: rest)
                = list_branch ((k0, VList l) :: rest))
  /\ (forall s k l, lookup ((k0, VStr s) :: rest) k = Some (VList l) ->
                    eval_prediction ((k0, VStr s) :: rest)
                    = Raise AttributeError).
Proof.
  assert (forall v, eval_prediction ((k0, v) :: rest)
                    = match v with
                      | VStr _ => str_branch ((k0, v) :: rest)
                      | VList _ => list_branch ((k0, v) :: rest)
                      | _ => Raise NotImplementedError
                      end) as Hsel.
  { intros v. unfold eval_prediction, getitem. simpl.
    rewrite str_eqb_refl. reflexivity. }
  split; [|split].
  - intros s. apply Hsel.
  - intros l. apply Hsel.
  - intros s k l Hk. rewrite Hsel. unfold str_branch.
    erewrite dict_comp_Raise with (e := AttributeError) (i := k); auto.
    + intros x Hx. destruct (In_keys_lookup _ x Hx) as [v Hv].
      unfold str_entry, getitem. rewrite Hv. cbn [bind].
      destruct v; simpl; auto.
      destruct (explanation_of_total s0) as [e ->]. simpl. eauto.
    + eapply lookup_Some_In, Hk.
    + unfold str_entry, getitem. rewrite Hk. reflexivity.
Qed.

(** ** Retrieval by tags *)

Section TagLoop.

Context {order : SetOrder}.

Lemma sets_meet_self (a : list str) : sets_meet a a = negb (match a with [] => true | _ => false end).
Proof.
  destruct a as [|x a]; auto. simpl. now rewrite str_eqb_refl.
Qed.

(** One round on a query with tags: the train id joins the entry of the
    query, whatever the train item's own tags are. *)
Lemma inner_step_tagged (t neig : item) (neighbors : dict (list str)) (l : list str) :
  concepts t <> [] -> lookup neighbors (qid t) = Some l ->
  exists neighbors' l',
    inner_step t neighbors neig = Ok neighbors'
    /\ lookup neighbors' (qid t) = Some l'
    /\ NoDup l'
    /\ (forall x, In x l' <-> In x l \/ x = qid neig)
    /\ (forall k, k <> qid t -> lookup neighbors' k = lookup neighbors k).
Proof.
  intros Hc Hl. unfold inner_step. rewrite sets_meet_self.
  destruct (concepts t) as [|c cs]; [congruence|]. cbn [negb].
  unfold getitem. rewrite Hl. cbn [bind]. rewrite lookup_setitem_same. cbn [bind].
  do 2 eexists. split; [reflexivity|]. split; [apply lookup_setitem_same|].
  split; [apply list_of_set_NoDup|]. split.
  - intros x. rewrite list_of_set_In, in_app_iff. simpl. intuition.
  - intros k Hk. now rewrite !lookup_setitem_other by assumption.
Qed.

Lemma inner_loop_tagged (t : item) (train : list item) :
  concepts t <> [] ->
  forall (neighbors : dict (list str)) (l : list str),
    lookup neighbors (qid t) = Some l ->
    exists neighbors' l',
      inner_loop t train neighbors = Ok neighbors'
      /\ lookup neighbors' (qid t) = Some l'
      /\ (train <> [] -> NoDup l')
      /\ (forall x, In x l' <-> In x l \/ In x (map qid train))
      /\ (forall k, k <> qid t -> lookup neighbors' k = lookup neighbors k).
Proof.
  intros Hc. induction train as [|neig train IH]; intros neighbors l Hl.
  - exists neighbors, l. simpl. repeat split; auto; try tauto; congruence.
  - destruct (inner_step_tagged t neig neighbors l Hc Hl)
      as (n1 & l1 & E1 & L1 & N1 & I1 & O1).
    destruct (IH n1 l1 L1) as (n2 & l2 & E2 & L2 & N2 & I2 & O2).
    exists n2, l2. simpl. rewrite E1. cbn [bind].
    split; [exact E2|]. split; [exact L2|]. split; [|split].
    + intros _. destruct train as [|x train]; [|apply N2; discriminate].
      simpl in E2. injection E2 as <-. rewrite L1 in L2. injection L2 as <-.
      exact N1.
    + intros x. rewrite I2, I1. simpl. intuition.
    + intros k Hk. now rewrite O2, O1.
Qed.

(** A query without tags is given no neighbour. *)
Lemma inner_loop_untagged (t : item) (train : list item) :
  concepts t = [] ->
  forall neighbors : dict (list str),
    lookup neighbors (qid t) = Some [] ->
    exists neighbors',
      inner_loop t train neighbors = Ok neighbors'
      /\ lookup neighbors' (qid t) = Some []
      /\ (forall k, k <> qid t -> lookup neighbors' k = lookup neighbors k).
Proof.
  intros Hc. induction train as [|neig train IH]; intros neighbors Hl.
  - exists neighbors. simpl. auto.
  - assert (list_of_set [] = []) as Hnil.
    { destruct (list_of_set []) as [|x l] eqn:E; auto.
      assert (In x []) as [] by (apply list_of_set_In; rewrite E; now left). }
    assert (inner_step t neighbors neig = Ok (setitem neighbors (qid t) [])) as E1.
    { unfold inner_step. rewrite Hc. simpl. unfold getitem. rewrite Hl. simpl.
      now rewrite Hnil. }
    destruct (IH (setitem neighbors (qid t) [])) as (n2 & E2 & L2 & O2).
    { apply lookup_setitem_same. }
    exists n2. simpl. rewrite E1. cbn [bind]. repeat split; auto.
    intros k Hk. now rewrite O2, lookup_setitem_other.
Qed.

Lemma inner_loop_any (t : item) (train : list item) (neighbors : dict (list str)) :
  lookup neighbors (qid t) = Some [] ->
  exists neighbors',
    inner_loop t train neighbors = Ok neighbors'
    /\ forall k, k <> qid t -> lookup neighbors' k = lookup neighbors k.
Proof.
  intros Hl. destruct (concepts t) as [|c cs] eqn:Hc.
  - destruct (inner_loop_untagged t train Hc neighbors Hl) as (n & E & _ & O).
    eauto.
  - assert (concepts t <> []) as Hc' by (rewrite Hc; discriminate).
    destruct (inner_loop_tagged t train Hc' neighbors [] Hl)
      as (n & l & E & _ & _ & _ & O). eauto.
Qed.

Lemma outer_loop_keeps (tests train : list item) (k : str) :
  ~ In k (map qid tests) ->
  forall neighbors : dict (list str),
  exists neighbors',
    outer_loop tests train neighbors = Ok neighbors'
    /\ lookup neighbors' k = lookup neighbors k.
Proof.
  induction tests as [|t tests IH]; intros Hk neighbors; simpl; eauto.
  simpl in Hk.
  destruct (inner_loop_any t train (setitem neighbors (qid t) []))
    as (n1 & E1 & O1); [apply lookup_setitem_same|].
  rewrite E1. cbn [bind].
  destruct (IH (fun H => Hk (or_intror H)) n1) as (n2 & E2 & L2).
  exists n2. split; auto. rewrite L2, O1, lookup_setitem_other; auto.
Qed.

(** What the cell computes for a query with tags: every train id. *)
Lemma tag_neighbors_all_train (tests train : list item) (t : item) :
  NoDup (map qid tests) -> In t tests -> concepts t <> [] ->
  exists neighbors l,
    tag_neighbors tests train = Ok neighbors
    /\ lookup neighbors (qid t) = Some l
    /\ forall x, In x l <-> In x (map qid train).
Proof.
  unfold tag_neighbors. generalize (@nil (str * list str)) as acc.
  induction tests as [|t0 tests IH]; intros acc Hnd Hin Hc; [destruct Hin|].
  simpl in Hnd. apply NoDup_cons_iff in Hnd. destruct Hnd as [Hnotin Hnd].
  simpl. destruct Hin as [->|Hin].
  - destruct (inner_loop_tagged t train Hc (setitem acc (qid t) []) [])
      as (n1 & l1 & E1 & L1 & _ & I1 & _); [apply lookup_setitem_same|].
    rewrite E1. cbn [bind].
    destruct (outer_loop_keeps tests train (qid t) Hnotin n1) as (n2 & E2 & L2).
    exists n2, l1. split; auto. split; [congruence|].
    intros x. rewrite I1. simpl. tauto.
  - destruct (inner_loop_any t0 train (setitem acc (qid t0) []))
      as (n1 & E1 & _); [apply lookup_setitem_same|].
    rewrite E1. cbn [bind]. apply IH; auto.
Qed.

End TagLoop.

(** C1, on the code. In the scenario of the specification (query tagged
    [diabetes], train item A tagged [diabetes] and [insulin], train item B
    tagged [cancer]) the cell returns both A and B under every set order,
    although B shares no tag with the query: the condition of the loop
    intersects the query's tags with themselves. *)
Theorem tag_scenario_returns_A_and_B (order : SetOrder) :
  shares_tag query item_A = true
  /\ shares_tag query item_B = false
  /\ exists neighbors l,
      tag_neighbors [query] [item_A; item_B] = Ok neighbors
      /\ lookup neighbors (qid query) = Some l
      /\ Permutation l [qid item_A; qid item_B]
      /\ l <> [qid item_A].
Proof.
  split; [reflexivity|]. split; [reflexivity|].
  unfold tag_neighbors. simpl outer_loop.
  destruct (inner_loop_tagged query [item_A; item_B]
              ltac:(discriminate) (setitem [] (qid query) []) []
              (lookup_setitem_same [] (qid query) []))
    as (n & l & E & L & N & I & _).
  simpl in *. rewrite E. cbn [bind].
  exists n, l. split; [reflexivity|]. split; [exact L|].
  assert (Permutation l [lit "A"; lit "B"]) as P.
  { apply NoDup_Permutation.
    - apply N. discriminate.
    - repeat constructor; simpl; intuition discriminate.
    - intros x. rewrite I. simpl. intuition. }
  split; [exact P|]. intros ->. apply Permutation_length in P. discriminate.
Qed.

(** ** Few-shot prompts *)

Lemma take_slot_length {A} (pool : list A) (j : nat) :
  j < length pool ->
  exists x pool', take_slot pool j = Some (x, pool')
                  /\ S (length pool') = length pool.
Proof.
  intros Hj. unfold take_slot.
  destruct (nth_error pool j) as [x|] eqn:E;
    [|apply nth_error_None in E; lia].
  destruct (rev pool) as [|lst r] eqn:R.
  { apply (f_equal (@length A)) in R. rewrite length_rev in R. simpl in R. lia. }
  do 2 eexists. split; [reflexivity|].
  rewrite removelast_firstn_len, length_firstn, !length_app, length_firstn.
  cbn [length]. rewrite length_skipn. lia.
Qed.

Lemma sample_pool_length {A} (rng : nat -> nat) (k : nat) :
  forall (i : nat) (pool : list A),
    k <= length pool -> length (sample_pool rng i pool k) = k.
Proof.
  induction k as [|k IH]; intros i pool Hk; simpl; auto.
  destruct (take_slot_length pool (rng i mod length pool))
    as (x & pool' & -> & Hlen).
  { apply Nat.mod_upper_bound. lia. }
  simpl. rewrite IH; lia.
Qed.

(** C5. Asking for more demonstrations than the neighbour list holds makes
    [random.sample] raise ([ValueError], the failure the specification calls
    InsufficientNeighbors) before anything is drawn, and the round of the
    cell fails with it; a sample that is returned always has exactly
    [num_shots] entries, never fewer. *)
Theorem sample_beyond_neighbors_fails (rng : nat -> nat)
  (neighbors : dict (list str)) (data : dict entry) (mapping : dict str)
  (num_shots : nat) (t : item) (population : list str) :
  lookup neighbors (qid t) = Some population ->
  length population < num_shots ->
  sample rng population num_shots = Raise ValueError
  /\ few_shot_query rng neighbors data mapping num_shots t = Raise ValueError
  /\ forall (k : nat) (shots : list str),
      sample rng population k = Ok shots -> length shots = k.
Proof.
  intros Hl Hlt.
  assert (sample rng population num_shots = Raise ValueError) as E.
  { unfold sample. destruct (num_shots <=? length population) eqn:C; auto.
    apply Nat.leb_le in C. lia. }
  split; [exact E|]. split.
  - unfold few_shot_query, getitem. rewrite Hl. cbn [bind]. now rewrite E.
  - intros k shots. unfold sample.
    destruct (k <=? length population) eqn:C; [|discriminate].
    apply Nat.leb_le in C. intros [= <-]. now apply sample_pool_length.
Qed.

Lemma demonstration_agree (data1 data2 : dict entry) (mapping : dict str)
  (shot : str) :
  lookup data1 shot = lookup data2 shot ->
  demonstration data1 mapping shot = demonstration data2 mapping shot.
Proof.
  intros H. unfold demonstration, getitem. now rewrite H.
Qed.

Lemma add_shots_agree (data1 data2 : dict entry) (mapping : dict str)
  (shots : list str) :
  (forall shot, In shot shots -> lookup data1 shot = lookup data2 shot) ->
  forall query,
    add_shots data1 mapping shots query = add_shots data2 mapping shots query.
Proof.
  induction shots as [|shot shots IH]; intros H query; simpl; auto.
  rewrite (demonstration_agree data1 data2 mapping shot (H shot (or_introl eq_refl))).
  destruct (demonstration data2 mapping shot); simpl; auto.
  apply IH. intros; apply H; right; assumption.
Qed.

(** The prompt is the blocks of the shots in order, then the question. *)
Lemma add_shots_blocks (data : dict entry) (mapping : dict str)
  (shots : list str) (blocks : list str) :
  mapM (demonstration data mapping) shots = Ok blocks ->
  forall query,
    add_shots data mapping shots query = Ok (query ++ concat blocks).
Proof.
  revert blocks; induction shots as [|shot shots IH]; intros blocks H query;
    simpl in *.
  - injection H as <-. simpl. now rewrite app_nil_r.
  - destruct (demonstration data mapping shot) as [b|]; [|discriminate].
    simpl in *. destruct (mapM (demonstration data mapping) shots) as [bs|];
      [|discriminate].
    simpl in H. injection H as <-. rewrite (IH bs eq_refl). simpl.
    now rewrite app_assoc.
Qed.

(** C8. Two assemblies of a prompt from the same question, the same ordered
    shots and the same answer mapping, over stores that hold the same
    records for those shots, give the same string (or the same failure);
    each demonstration block is the same string in both, being a function of
    the shot's record and the mapping alone. *)
Theorem prompt_assembly_deterministic (data1 data2 : dict entry)
  (mapping : dict str) (shots : list str) (question : str) :
  (forall shot, In shot shots -> lookup data1 shot = lookup data2 shot) ->
  build_query data1 mapping shots question
  = build_query data2 mapping shots question
  /\ (forall shot, In shot shots ->
                   demonstration data1 mapping shot
                   = demonstration data2 mapping shot)
  /\ (forall blocks, mapM (demonstration data1 mapping) shots = Ok blocks ->
                     build_query data2 mapping shots question
                     = Ok (concat blocks ++ question)).
Proof.
  intros H.
  assert (build_query data1 mapping shots question
          = build_query data2 mapping shots question) as E.
  { unfold build_query. now rewrite (add_shots_agree data1 data2 mapping shots H). }
  split; [exact E|]. split.
  - intros shot Hin. apply demonstration_agree, H, Hin.
  - intros blocks Hb. rewrite <- E. unfold build_query.
    rewrite (add_shots_blocks data1 mapping shots blocks Hb []). reflexivity.
Qed.

(** ** Instances and failing inputs *)



Lemma accuracy_indexes_gold_witness :
  accuracy [(lit "q1", lit "A"); (lit "q9", lit "B")] [(lit "q1", lit "A")]
    [lit "q1"] = Raise KeyError
  /\ exists q,
      accuracy [(lit "q1", lit "A")] [(lit "q1", lit "A"); (lit "q2", lit "B")]
        [lit "q1"; lit "q2"] = Ok q.
Proof.
  split.
  - apply (proj1 (accuracy_indexes_gold_by_predicted_ids
                    [(lit "q1", lit "A"); (lit "q9", lit "B")]
                    [(lit "q1", lit "A")] [lit "q1"]) (lit "q9")).
    + right. left. reflexivity.
    + reflexivity.
  - apply (proj2 (accuracy_indexes_gold_by_predicted_ids
                    [(lit "q1", lit "A")]
                    [(lit "q1", lit "A"); (lit "q2", lit "B")]
                    [lit "q1"; lit "q2"])).
    + intros k [<-|[]]. left. reflexivity.
    + discriminate.
Defined.



Lemma branch_fixed_witness :
  eval_prediction
    [(lit "q", VStr (lit "A")); (lit "r", VList [VStr (lit "B")])]
  = Raise AttributeError.
Proof.
  apply (proj2 (proj2 (branch_fixed_by_first_value (lit "q")
                         [(lit "r", VList [VStr (lit "B")])]))
           (lit "A") (lit "r") [VStr (lit "B")]).
  reflexivity.
Defined.

(** The scenario under the set order of [nodup]. *)
Lemma tag_scenario_witness :
  exists neighbors l,
    @tag_neighbors nodup_order [query] [item_A; item_B] = Ok neighbors
    /\ lookup neighbors (qid query) = Some l
    /\ Permutation l [qid item_A; qid item_B]
    /\ l <> [qid item_A].
Proof.
  exact (proj2 (proj2 (tag_scenario_returns_A_and_B nodup_order))).
Defined.

Example tag_scenario_nodup :
  @tag_neighbors nodup_order [query] [item_A; item_B]
  = Ok [(lit "q", [lit "A"; lit "B"])].
Proof. reflexivity. Qed.

(** Five shots asked of two neighbours. *)
Lemma sample_five_of_two_witness :
  sample (fun i => i) [lit "A"; lit "B"] 5 = Raise ValueError
  /\ few_shot_query (fun i => i) [(lit "q", [lit "A"; lit "B"])] [] mapping 5
       query = Raise ValueError
  /\ forall (k : nat) (shots : list str),
      sample (fun i => i) [lit "A"; lit "B"] k = Ok shots -> length shots = k.
Proof.
  apply sample_beyond_neighbors_fails.
  - reflexivity.
  - simpl. lia.
Defined.

Lemma prompt_assembly_witness :
  build_query
    [(lit "A", {| QUESTION := lit "QA"; LONG_ANSWER := lit "because";
                  final_decision := lit "yes" |})]
    mapping [lit "A"] (lit "Q")
  = build_query
      [(lit "A", {| QUESTION := lit "QA"; LONG_ANSWER := lit "because";
                    final_decision := lit "yes" |});
       (lit "B", {| QUESTION := lit "QB"; LONG_ANSWER := lit "since";
                    final_decision := lit "no" |})]
      mapping [lit "A"] (lit "Q").
Proof.
  apply prompt_assembly_deterministic.
  intros shot [<-|[]]. reflexivity.
Defined.

Example few_shot_prompt_text :
  build_query
    [(lit "A", {| QUESTION := lit "QA"; LONG_ANSWER := lit "because";
                  final_decision := lit "yes" |})]
    mapping [lit "A"] (lit "Q")
  = Ok (lit "QA {" ++ [dq] ++ lit "step_by_step_thinking" ++ [dq] ++ lit ": "
        ++ [dq] ++ lit "because" ++ [dq] ++ lit "answer_choice" ++ [dq]
        ++ lit ": " ++ [dq] ++ lit "A" ++ [dq] ++ lit "}" ++ [nl; sp; nl]
        ++ lit "Q").
Proof. reflexivity. Qed.

(** * Further properties of the cells *)

Import Tags Predict Text Candidates.

(** ** [clean] and [strip] *)

Lemma filter_kept_lstrip (s : str) : filter kept (lstrip s) = filter kept s.
Proof.
  induction s as [|c s IH]; simpl; auto.
  destruct (isspace c) eqn:W; simpl; auto.
  destruct (kept c) eqn:K; auto.
  rewrite (kept_not_space c K) in W. discriminate.
Qed.

Lemma filter_kept_strip (s : str) : filter kept (strip s) = filter kept s.
Proof.
  unfold strip, rstrip.
  rewrite filter_rev, filter_kept_lstrip, filter_rev, rev_involutive.
  apply filter_kept_lstrip.
Qed.

Lemma first_filter {A} (p : A -> bool) (l : list A) :
  first (filter p l) = match find p l with
                       | Some a => Ok a
                       | None => Raise IndexError
                       end.
Proof.
  induction l as [|a l IH]; simpl; auto. destruct (p a); auto.
Qed.

(** X1. [clean] works character by character: cleaning a concatenation is
    concatenating the cleaned parts, and the [.strip()] the parser applies
    before [clean] does not change the cleaned text. *)
Theorem clean_app_strip (a b : str) :
  clean (a ++ b) = clean a ++ clean b
  /\ clean (strip a) = clean a.
Proof.
  rewrite !clean_filter. split; [apply filter_app | apply filter_kept_strip].
Qed.

(** X2. [clean] returns the empty string exactly for the inputs without a
    letter or period (digits, punctuation, whitespace, non-ASCII text);
    otherwise its first character is the first letter or period of the
    input. *)
Theorem clean_first_character (s : str) :
  (clean s = [] <-> forall c, In c s -> kept c = false)
  /\ first (clean s) = match first_kept s with
                       | Some c => Ok c
                       | None => Raise IndexError
                       end.
Proof.
  rewrite clean_filter. split; [|apply first_filter].
  split.
  - intros E c Hc. destruct (kept c) eqn:K; auto.
    assert (In c (filter kept s)) as H by (apply filter_In; auto).
    rewrite E in H. destruct H.
  - intros H. apply filter_none, H.
Qed.

(** ** [split] *)

Lemma starts_with_app (sep post : str) : starts_with sep (sep ++ post) = true.
Proof.
  induction sep as [|a sep IH]; simpl; auto.
  unfold char_eqb. now rewrite N.eqb_refl.
Qed.

Lemma starts_with_prefix (sep s : str) :
  starts_with sep s = true -> s = sep ++ skipn (length sep) s.
Proof.
  revert s; induction sep as [|a sep IH]; intros s H; simpl in *; auto.
  destruct s as [|b s]; [discriminate|].
  apply andb_true_iff in H. destruct H as [H1 H2].
  apply N.eqb_eq in H1. subst b. f_equal. apply IH, H2.
Qed.

Lemma join_cons (sep p : str) (rest : list str) :
  rest <> [] -> join sep (p :: rest) = p ++ sep ++ join sep rest.
Proof. destruct rest; [congruence | reflexivity]. Qed.

Lemma join_split_go (sep : str) :
  sep <> [] ->
  forall (s : str) (skip : nat) (cur : str),
    skip <= length s ->
    join sep (split_go sep s skip cur) = rev cur ++ skipn skip s.
Proof.
  intros Hsep. induction s as [|c s IH]; intros skip cur Hk.
  - simpl in Hk. replace skip with 0 by lia. simpl. now rewrite app_nil_r.
  - destruct skip as [|k].
    + change (split_go sep (c :: s) 0 cur)
        with (if starts_with sep (c :: s)
              then rev cur :: split_go sep s (length sep - 1) []
              else split_go sep s 0 (c :: cur)).
      destruct (starts_with sep (c :: s)) eqn:E.
      * pose proof (starts_with_prefix sep (c :: s) E) as P.
        destruct sep as [|a sep]; [congruence|].
        simpl in P. injection P as -> P.
        assert (length sep <= length s) as Hlen.
        { rewrite P, length_app. lia. }
        rewrite join_cons by apply split_go_nonempty.
        replace (length (a :: sep) - 1) with (length sep) by (simpl; lia).
        rewrite IH by exact Hlen.
        simpl. rewrite <- P. reflexivity.
      * rewrite IH by lia. simpl. now rewrite <- app_assoc.
    + simpl. apply IH. simpl in Hk. lia.
Qed.

(** X3. Splitting loses nothing: joining the pieces of [s.split(sep)] with
    [sep] gives [s] back, and there is always at least one piece. *)
Theorem join_split (s sep : str) :
  sep <> [] -> join sep (split s sep) = s /\ split s sep <> [].
Proof.
  intros Hsep. split; [|apply split_go_nonempty].
  unfold split. rewrite (join_split_go sep Hsep s 0 []) by lia. reflexivity.
Qed.

Lemma join_split_witness :
  answer_marker <> []
  /\ join answer_marker (split (generation (lit "A")) answer_marker)
     = generation (lit "A")
  /\ split (generation (lit "A")) answer_marker <> [].
Proof.
  assert (answer_marker <> []) as H by discriminate.
  split; [exact H|]. apply join_split, H.
Defined.

Lemma starts_with_firstn (sep s : str) :
  starts_with sep s = true <-> firstn (length sep) s = sep.
Proof.
  revert s; induction sep as [|a sep IH]; intros s; simpl.
  - tauto.
  - destruct s as [|b s]; simpl; [split; discriminate|].
    rewrite andb_true_iff, IH. unfold char_eqb. rewrite N.eqb_eq.
    split; [intros [-> ->]; reflexivity | intros [= -> H]; auto].
Qed.

Lemma starts_with_inside (sep a b : str) :
  starts_with sep (a ++ b) = true -> length sep <= length a ->
  starts_with sep a = true.
Proof.
  rewrite !starts_with_firstn, firstn_app. intros H Hlen.
  replace (length sep - length a) with 0 in H by lia.
  simpl in H. now rewrite app_nil_r in H.
Qed.

Lemma starts_with_across (sep a b : str) :
  starts_with sep (a ++ b) = true -> length a < length sep ->
  sep = a ++ firstn (length sep - length a) b.
Proof.
  rewrite starts_with_firstn, firstn_app. intros H Hlen.
  rewrite firstn_all2 in H by lia. now symmetry.
Qed.

(** An unbordered separator is not a proper head followed by its own
    beginning. *)
Lemma unbordered_no_overlap (sep hd : str) (k : nat) :
  unbordered sep = true -> hd <> [] -> 0 < k ->
  sep = hd ++ firstn k sep -> k <= length sep -> False.
Proof.
  intros U Hhd Hk E Hle.
  assert (length sep = length hd + k) as Hlen.
  { rewrite E at 1. rewrite length_app, length_firstn. lia. }
  assert (0 < length hd) as Hpos by (destruct hd; [congruence | simpl; lia]).
  unfold unbordered in U. rewrite forallb_forall in U.
  specialize (U k). rewrite in_seq in U.
  assert (negb (border sep k) = true) as B by (apply U; lia).
  unfold border in B.
  assert (skipn (length sep - k) sep = firstn k sep) as S.
  { replace (length sep - k) with (length hd) by lia.
    rewrite E at 1. rewrite skipn_app, skipn_all, Nat.sub_diag. reflexivity. }
  rewrite S, str_eqb_refl in B. discriminate.
Qed.

Lemma split_go_skip (sep pre rest cur : str) :
  split_go sep (pre ++ rest) (length pre) cur = split_go sep rest 0 cur.
Proof.
  induction pre as [|c pre IH]; simpl; auto.
Qed.

Lemma last_item_cons {A} (a : A) (l : list A) :
  l <> [] -> last_item (a :: l) = last_item l.
Proof. destruct l; [congruence | reflexivity]. Qed.

Lemma split_go_unfold (sep : str) (c : char) (s cur : str) :
  split_go sep (c :: s) 0 cur
  = if starts_with sep (c :: s)
    then rev cur :: split_go sep s (length sep - 1) []
    else split_go sep s 0 (c :: cur).
Proof. reflexivity. Qed.

(** After an occurrence of an unbordered separator the scan is back at the
    start of a piece, whatever came before. *)
Lemma last_split_go (sep post : str) :
  unbordered sep = true -> sep <> [] ->
  forall (pre : str) (k : nat) (cur : str),
    (exists hd, hd <> []
                /\ sep = hd ++ firstn k (pre ++ sep ++ post)
                /\ k <= length (pre ++ sep ++ post)) ->
    last_item (split_go sep (pre ++ sep ++ post) k cur)
    = last_item (split_go sep post 0 []).
Proof.
  intros U Hsep. induction pre as [|c pre IH]; intros k cur (hd & Hhd & E & Hk).
  - simpl in *. destruct k as [|k].
    + destruct sep as [|a tl]; [congruence|].
      change ((a :: tl) ++ post) with (a :: (tl ++ post)).
      rewrite split_go_unfold.
      change (a :: (tl ++ post)) with ((a :: tl) ++ post).
      rewrite starts_with_app, last_item_cons by apply split_go_nonempty.
      replace (length (a :: tl) - 1) with (length tl) by (simpl; lia).
      now rewrite split_go_skip.
    + exfalso.
      assert (length sep = length hd + S k) as Hlen.
      { rewrite E at 1. rewrite length_app, length_firstn. lia. }
      apply (unbordered_no_overlap sep hd (S k) U Hhd); try lia.
      rewrite E at 1. f_equal. rewrite firstn_app.
      replace (S k - length sep) with 0 by lia. simpl. now rewrite app_nil_r.
  - change ((c :: pre) ++ sep ++ post) with (c :: (pre ++ sep ++ post)) in *.
    destruct k as [|k].
    + rewrite split_go_unfold.
      destruct (starts_with sep (c :: pre ++ sep ++ post)) eqn:S.
      * rewrite last_item_cons by apply split_go_nonempty.
        apply IH. exists [c].
        pose proof (starts_with_prefix sep _ S) as P.
        destruct sep as [|a tl]; [congruence|].
        simpl in P. injection P as <- P.
        replace (length (c :: tl) - 1) with (length tl) by (simpl; lia).
        assert (firstn (length tl) (pre ++ (c :: tl) ++ post) = tl) as F.
        { rewrite P at 1. rewrite firstn_app, firstn_all, Nat.sub_diag. simpl.
          now rewrite app_nil_r. }
        split; [discriminate|]. split; [now rewrite F|].
        rewrite P at 1. rewrite length_app. lia.
      * apply IH. exists sep. split; [exact Hsep|]. simpl.
        split; [now rewrite app_nil_r | lia].
    + simpl. apply IH. exists (hd ++ [c]). simpl in E, Hk.
      split; [destruct hd; discriminate|].
      split; [now rewrite <- app_assoc | lia].
Qed.

Lemma last_split (sep pre post : str) :
  unbordered sep = true -> sep <> [] ->
  last_item (split (pre ++ sep ++ post) sep) = last_item (split post sep).
Proof.
  intros U Hsep. unfold split. apply last_split_go; auto.
  exists sep. split; [exact Hsep|]. simpl. split; [now rewrite app_nil_r | lia].
Qed.

Lemma occurs_cons (sep : str) (c : char) (s : str) :
  occurs sep (c :: s) = starts_with sep (c :: s) || occurs sep s.
Proof. reflexivity. Qed.

(** Up to the first occurrence of an unbordered separator the scan collects
    one piece. *)
Lemma first_split_go (sep post : str) :
  unbordered sep = true -> sep <> [] ->
  forall (mid cur : str),
    occurs sep mid = false ->
    first (split_go sep (mid ++ sep ++ post) 0 cur) = Ok (rev cur ++ mid).
Proof.
  intros U Hsep. induction mid as [|c mid IH]; intros cur Hocc.
  - simpl. destruct sep as [|a tl]; [congruence|].
    change ((a :: tl) ++ post) with (a :: (tl ++ post)).
    rewrite split_go_unfold.
    change (a :: (tl ++ post)) with ((a :: tl) ++ post).
    rewrite starts_with_app. simpl. now rewrite app_nil_r.
  - rewrite occurs_cons in Hocc. apply orb_false_iff in Hocc.
    destruct Hocc as [Hs Hocc].
    change ((c :: mid) ++ sep ++ post) with (c :: (mid ++ sep ++ post)).
    rewrite split_go_unfold.
    destruct (starts_with sep (c :: mid ++ sep ++ post)) eqn:S.
    + exfalso.
      change (c :: mid ++ sep ++ post) with ((c :: mid) ++ sep ++ post) in S.
      destruct (le_lt_dec (length sep) (length (c :: mid))) as [Hle|Hlt].
      * rewrite (starts_with_inside sep (c :: mid) (sep ++ post) S Hle) in Hs.
        discriminate.
      * pose proof (starts_with_across sep (c :: mid) (sep ++ post) S Hlt) as E.
        rewrite firstn_app in E.
        replace (length sep - length (c :: mid) - length sep) with 0 in E by lia.
        simpl firstn in E at 2. rewrite app_nil_r in E.
        apply (unbordered_no_overlap sep (c :: mid)
                 (length sep - length (c :: mid)) U); auto; try lia.
        discriminate.
    + rewrite IH by exact Hocc. simpl. now rewrite <- app_assoc.
Qed.

Lemma first_split (sep mid post : str) :
  unbordered sep = true -> sep <> [] -> occurs sep mid = false ->
  first (split (mid ++ sep ++ post) sep) = Ok mid.
Proof.
  intros U Hsep Hocc. unfold split.
  now rewrite (first_split_go sep post U Hsep mid [] Hocc).
Qed.

Lemma markers_unbordered :
  unbordered rationale_marker = true /\ unbordered answer_marker = true
  /\ rationale_marker <> [] /\ answer_marker <> [].
Proof. repeat split; discriminate. Qed.

(** ** The parser on marked texts *)

Lemma last_split_clean (sep pre post : str) :
  unbordered sep = true -> sep <> [] -> occurs sep post = false ->
  last_item (split (pre ++ sep ++ post) sep) = Ok post.
Proof.
  intros U Hsep Hocc.
  rewrite (last_split sep pre post U Hsep), (split_absent post sep Hocc).
  reflexivity.
Qed.

Lemma answer_of_marked (pre post : str) :
  occurs answer_marker post = false ->
  answer_segment (pre ++ answer_marker ++ post) = Ok (strip post)
  /\ answer_of (pre ++ answer_marker ++ post)
     = match first_kept post with
       | Some c => Ok [c]
       | None => Raise IndexError
       end.
Proof.
  intros Hocc. destruct markers_unbordered as (_ & U & _ & Hne).
  assert (answer_segment (pre ++ answer_marker ++ post) = Ok (strip post)) as E.
  { unfold answer_segment.
    now rewrite (last_split_clean answer_marker pre post U Hne Hocc). }
  split; [exact E|]. unfold answer_of. rewrite E. cbn [bind].
  rewrite clean_filter, filter_kept_strip, first_filter.
  unfold first_kept. now destruct (find kept post).
Qed.

(** X4. The answer symbol is read after the last answer marker: for a text
    [pre ++ marker ++ post] with no marker in [post], whatever [pre] holds,
    the segment is [post] stripped and the symbol is the first letter or
    period of [post]; without one the parser raises [IndexError]. *)
Theorem answer_after_last_marker (pre post : str) :
  occurs answer_marker post = false ->
  answer_segment (pre ++ answer_marker ++ post) = Ok (strip post)
  /\ answer_of (pre ++ answer_marker ++ post)
     = match first_kept post with
       | Some c => Ok [c]
       | None => Raise IndexError
       end.
Proof.
  intros Hocc. destruct markers_unbordered as (_ & U & _ & Hne).
  assert (answer_segment (pre ++ answer_marker ++ post) = Ok (strip post)) as E.
  { unfold answer_segment.
    now rewrite (last_split_clean answer_marker pre post U Hne Hocc). }
  split; [exact E|]. unfold answer_of. rewrite E. cbn [bind].
  rewrite clean_filter, filter_kept_strip, first_filter.
  unfold first_kept. now destruct (find kept post).
Qed.

Lemma answer_after_last_marker_witness :
  occurs answer_marker (lit " (B) or A}") = false
  /\ answer_segment (generation (lit "C") ++ answer_marker ++ lit " (B) or A}")
     = Ok (strip (lit " (B) or A}"))
  /\ answer_of (generation (lit "C") ++ answer_marker ++ lit " (B) or A}")
     = Ok (lit "B").
Proof.
  split; [reflexivity|].
  apply (answer_after_last_marker (generation (lit "C")) (lit " (B) or A}")).
  reflexivity.
Defined.

(** X5. The explanation is the text between the last rationale marker and
    the answer marker that follows it, stripped: for
    [pre ++ rationale_marker ++ mid ++ answer_marker ++ post] with no
    rationale marker after [pre]'s and no answer marker inside [mid]. *)
Theorem explanation_between_markers (pre mid post : str) :
  occurs rationale_marker (mid ++ answer_marker ++ post) = false ->
  occurs answer_marker mid = false ->
  explanation_of (pre ++ rationale_marker ++ mid ++ answer_marker ++ post)
  = Ok (strip mid).
Proof.
  intros Hr Ha. destruct markers_unbordered as (Ur & Ua & Hnr & Hna).
  unfold explanation_of.
  rewrite (last_split_clean rationale_marker pre (mid ++ answer_marker ++ post)
             Ur Hnr Hr). cbn [bind].
  rewrite (first_split answer_marker mid post Ua Hna Ha). reflexivity.
Qed.

Lemma explanation_between_markers_witness :
  explanation_of
    (lit "noise" ++ rationale_marker ++ lit " because " ++ answer_marker
     ++ lit " A")
  = Ok (lit "because").
Proof.
  apply (explanation_between_markers (lit "noise") (lit " because ") (lit " A"));
    reflexivity.
Defined.

Lemma lstrip_head (s : str) :
  match lstrip s with
  | c :: _ => isspace c = false
  | [] => True
  end.
Proof.
  induction s as [|c s IH]; simpl; auto.
  destruct (isspace c) eqn:W; auto.
Qed.

Lemma lstrip_snoc (l : str) (c : char) :
  isspace c = false -> lstrip (l ++ [c]) = lstrip l ++ [c].
Proof.
  intros W. induction l as [|a l IH]; simpl.
  - now rewrite W.
  - destruct (isspace a); auto.
Qed.

Lemma rstrip_cons (c : char) (s : str) :
  isspace c = false -> rstrip (c :: s) = c :: rstrip s.
Proof.
  intros W. unfold rstrip. simpl.
  rewrite (lstrip_snoc (rev s) c W), rev_app_distr. reflexivity.
Qed.

(** X6. An explanation never begins or ends with a whitespace character,
    and extracting it never raises, whatever the text. *)
Theorem explanation_is_stripped (text : str) :
  exists e,
    explanation_of text = Ok e
    /\ match e with c :: _ => isspace c = false | [] => True end
    /\ match rev e with c :: _ => isspace c = false | [] => True end.
Proof.
  unfold explanation_of.
  destruct (last_item_nonempty (split text rationale_marker)
              (split_go_nonempty _ _ _ _)) as [tail ->]. cbn [bind].
  destruct (first_nonempty (split tail answer_marker)
              (split_go_nonempty _ _ _ _)) as [head ->]. cbn [bind].
  exists (strip head). split; [reflexivity|]. unfold strip. split.
  - pose proof (lstrip_head head) as H.
    destruct (lstrip head) as [|c t]; [exact I|].
    now rewrite (rstrip_cons c t H).
  - unfold rstrip. rewrite rev_involutive. apply lstrip_head.
Qed.

(** ** What a comprehension stores *)

Lemma keys_setitem_present {V} (d : dict V) (k : str) (v : V) :
  In k (keys d) -> keys (setitem d k v) = keys d.
Proof.
  induction d as [|[k' v'] d IH]; intros H; simpl in *; [destruct H|].
  destruct (str_eqb k' k) eqn:E; simpl; auto.
  f_equal. apply IH. destruct H as [H|H]; auto.
  apply str_eqb_neq in E. congruence.
Qed.

Lemma keys_setitem_cases {V} (d : dict V) (k : str) (v : V) :
  (In k (keys d) /\ keys (setitem d k v) = keys d)
  \/ (~ In k (keys d) /\ keys (setitem d k v) = keys d ++ [k]).
Proof.
  destruct (in_dec str_dec k (keys d)) as [i|n].
  - left. split; auto. now apply keys_setitem_present.
  - right. split; auto. now apply keys_setitem_fresh.
Qed.

Lemma setitem_wf {V} (d : dict V) (k : str) (v : V) :
  wf_dict d -> wf_dict (setitem d k v).
Proof.
  unfold wf_dict. intros W.
  destruct (keys_setitem_cases d k v) as [[_ ->]|[n ->]]; auto.
  apply NoDup_app; auto.
  - repeat constructor. simpl. tauto.
  - intros x Hx [<-|[]]. contradiction.
Qed.

Lemma In_keys_setitem {V} (d : dict V) (k x : str) (v : V) :
  In x (keys (setitem d k v)) <-> In x (keys d) \/ x = k.
Proof.
  destruct (keys_setitem_cases d k v) as [[i ->]|[n ->]].
  - split; [tauto|]. intros [H| ->]; auto.
  - rewrite in_app_iff. simpl. intuition.
Qed.

Lemma lookup_setitem {V} (d : dict V) (k x : str) (v : V) :
  lookup (setitem d k v) x = if str_eqb k x then Some v else lookup d x.
Proof.
  destruct (str_eqb k x) eqn:E.
  - apply str_eqb_eq in E. subst x. apply lookup_setitem_same.
  - apply str_eqb_neq in E. apply lookup_setitem_other. congruence.
Qed.

Lemma dict_comp_Ok_inv {I V} (entry : I -> result (str * V)) (ixs : list I) :
  forall (acc d : dict V),
    dict_comp entry ixs acc = Ok d ->
    forall i, In i ixs -> exists kv, entry i = Ok kv.
Proof.
  induction ixs as [|j ixs IH]; intros acc d H i Hi; [destruct Hi|].
  simpl in H. destruct (entry j) as [kv|] eqn:E; [|discriminate].
  simpl in H. destruct Hi as [<-|Hi]; eauto.
Qed.

(** Every stored value was stored by some round or was there before. *)
Lemma dict_comp_lookup {I V} (entry : I -> result (str * V)) (ixs : list I) :
  forall (acc d : dict V),
    dict_comp entry ixs acc = Ok d ->
    forall k v, lookup d k = Some v ->
                lookup acc k = Some v
                \/ exists i, In i ixs /\ entry i = Ok (k, v).
Proof.
  induction ixs as [|j ixs IH]; intros acc d H k v Hk; simpl in H.
  - injection H as <-. auto.
  - destruct (entry j) as [[k' v']|] eqn:E; [|discriminate]. simpl in H.
    destruct (IH _ _ H k v Hk) as [L|(i & Hi & Ei)].
    + rewrite lookup_setitem in L. destruct (str_eqb k' k) eqn:Ek; auto.
      apply str_eqb_eq in Ek. subst k'. injection L as <-.
      right. exists j. split; [now left | exact E].
    + right. exists i. split; [now right | exact Ei].
Qed.

Lemma dict_comp_wf {I V} (entry : I -> result (str * V)) (ixs : list I) :
  forall (acc d : dict V),
    dict_comp entry ixs acc = Ok d -> wf_dict acc -> wf_dict d.
Proof.
  induction ixs as [|j ixs IH]; intros acc d H W; simpl in H.
  - now injection H as <-.
  - destruct (entry j) as [kv|]; [|discriminate]. simpl in H.
    eapply IH; [exact H|]. now apply setitem_wf.
Qed.

(** The keys of the result are the earlier keys and the keys stored. *)
Lemma dict_comp_In_keys {I V} (entry : I -> result (str * V)) (ixs : list I) :
  forall (acc d : dict V),
    dict_comp entry ixs acc = Ok d ->
    forall k, In k (keys d)
              <-> In k (keys acc)
                  \/ exists i kv, In i ixs /\ entry i = Ok kv /\ fst kv = k.
Proof.
  induction ixs as [|j ixs IH]; intros acc d H k; simpl in H.
  - injection H as <-. split; auto. intros [H|(i & _ & [] & _)]; auto.
  - destruct (entry j) as [kv|] eqn:E; [|discriminate]. simpl in H.
    rewrite (IH _ _ H k), In_keys_setitem. split.
    + intros [[Hk| ->]|(i & kv' & Hi & Ei & Ek)]; auto.
      * right. exists j, kv. split; [now left | auto].
      * right. exists i, kv'. split; [now right | auto].
    + intros [Hk|(i & kv' & [<-|Hi] & Ei & Ek)]; auto.
      * left. right. rewrite E in Ei. injection Ei as <-. now symmetry.
      * right. exists i, kv'. auto.
Qed.

Lemma dict_comp_ext {I V} (entry1 entry2 : I -> result (str * V))
  (ixs : list I) :
  (forall i, In i ixs -> entry1 i = entry2 i) ->
  forall acc : dict V, dict_comp entry1 ixs acc = dict_comp entry2 ixs acc.
Proof.
  induction ixs as [|j ixs IH]; intros H acc; simpl; auto.
  rewrite (H j (or_introl eq_refl)). destruct (entry2 j); simpl; auto.
  apply IH. intros; apply H; now right.
Qed.

(** ** What [eval_prediction] returns *)

Lemma eval_prediction_inv (p : dict pyval) (e a : dict str) :
  eval_prediction p = Ok (e, a) ->
  exists pick : (str -> result str) -> dict pyval -> str -> result (str * str),
    (pick = str_entry \/ pick = list_entry)
    /\ dict_comp (pick explanation_of p) (keys p) [] = Ok e
    /\ dict_comp (pick answer_of p) (keys p) [] = Ok a.
Proof.
  unfold eval_prediction. intros H.
  destruct (first (keys p)) as [k0|]; [|discriminate]. cbn [bind] in H.
  destruct (getitem p k0) as [v0|]; [|discriminate]. cbn [bind] in H.
  destruct v0; try discriminate.
  - exists str_entry. unfold str_branch in H.
    destruct (dict_comp (str_entry explanation_of p) (keys p) []) as [e'|];
      [|discriminate]. cbn [bind] in H.
    destruct (dict_comp (str_entry answer_of p) (keys p) []) as [a'|];
      [|discriminate]. injection H as <- <-. auto.
  - exists list_entry. unfold list_branch in H.
    destruct (dict_comp (list_entry explanation_of p) (keys p) []) as [e'|];
      [|discriminate]. cbn [bind] in H.
    destruct (dict_comp (list_entry answer_of p) (keys p) []) as [a'|];
      [|discriminate]. injection H as <- <-. auto.
Qed.

Lemma entry_result (pick : (str -> result str) -> dict pyval -> str
                            -> result (str * str))
  (f : str -> result str) (p : dict pyval) (k : str) (kv : str * str) :
  pick = str_entry \/ pick = list_entry ->
  pick f p k = Ok kv ->
  fst kv = k /\ exists text, f text = Ok (snd kv).
Proof.
  intros [-> | ->]; unfold str_entry, list_entry; intros H.
  - destruct (getitem p k) as [v|]; [|discriminate]. cbn [bind] in H.
    destruct (str_method v) as [text|]; [|discriminate]. cbn [bind] in H.
    destruct (f text) as [r|] eqn:E; [|discriminate].
    injection H as <-. simpl. eauto.
  - destruct (getitem p k) as [v|]; [|discriminate]. cbn [bind] in H.
    destruct (subscript0 v) as [v0|]; [|discriminate]. cbn [bind] in H.
    destruct (str_method v0) as [text|]; [|discriminate]. cbn [bind] in H.
    destruct (f text) as [r|] eqn:E; [|discriminate].
    injection H as <-. simpl. eauto.
Qed.

Lemma answer_of_kept (text v : str) :
  answer_of text = Ok v -> exists c, v = [c] /\ kept c = true.
Proof.
  destruct (answer_segment_total text) as [seg Hseg].
  rewrite (answer_of_cases text seg Hseg).
  pose proof (clean_all_kept seg) as K.
  destruct (clean seg) as [|c r]; [discriminate|].
  intros [= <-]. exists c. split; auto. now inversion K.
Qed.

Lemma comp_keys (pick : (str -> result str) -> dict pyval -> str
                          -> result (str * str))
  (f : str -> result str) (p : dict pyval) (d : dict str) :
  pick = str_entry \/ pick = list_entry -> wf_dict p ->
  dict_comp (pick f p) (keys p) [] = Ok d -> keys d = keys p.
Proof.
  intros Hpick W H.
  apply dict_comp_keys with (key := fun k => k) in H.
  - now rewrite map_id in H.
  - intros k kv _ E. now destruct (entry_result pick f p k kv Hpick E).
  - simpl. now rewrite map_id.
Qed.

Lemma parsed_mappings_shape_keys (p : dict pyval) (e a : dict str) :
  wf_dict p -> eval_prediction p = Ok (e, a) ->
  keys e = keys p /\ keys a = keys p.
Proof.
  intros W H. destruct (eval_prediction_inv p e a H) as (pick & Hp & He & Ha).
  split; [apply (comp_keys pick explanation_of p e Hp W He)|].
  apply (comp_keys pick answer_of p a Hp W Ha).
Qed.

(** X7. When [eval_prediction] returns, both mappings it returns have the
    ids of the predictions, in the same order, and every answer is a single
    character that is a letter or a period. *)
Theorem parsed_mappings_shape (p : dict pyval) (e a : dict str) :
  wf_dict p -> eval_prediction p = Ok (e, a) ->
  keys e = keys p /\ keys a = keys p
  /\ forall k v, lookup a k = Some v -> exists c, v = [c] /\ kept c = true.
Proof.
  intros W H. destruct (eval_prediction_inv p e a H) as (pick & Hp & He & Ha).
  split; [apply (comp_keys pick explanation_of p e Hp W He)|].
  split; [apply (comp_keys pick answer_of p a Hp W Ha)|].
  intros k v Hk.
  destruct (dict_comp_lookup _ _ _ _ Ha k v Hk) as [L|(i & _ & Ei)];
    [discriminate|].
  destruct (entry_result pick answer_of p i (k, v) Hp Ei) as (_ & text & Et).
  apply (answer_of_kept text v Et).
Qed.

Lemma parsed_mappings_shape_witness :
  wf_dict [(lit "q1", VStr (lit "The answer is B"));
           (lit "q2", VStr (generation (lit "C")))]
  /\ exists e a,
      eval_prediction [(lit "q1", VStr (lit "The answer is B"));
                       (lit "q2", VStr (generation (lit "C")))] = Ok (e, a)
      /\ keys e = [lit "q1"; lit "q2"] /\ keys a = [lit "q1"; lit "q2"]
      /\ forall k v, lookup a k = Some v -> exists c, v = [c] /\ kept c = true.
Proof.
  assert (wf_dict [(lit "q1", VStr (lit "The answer is B"));
                   (lit "q2", VStr (generation (lit "C")))]) as W.
  { unfold wf_dict. simpl. repeat constructor; simpl; intuition discriminate. }
  split; [exact W|].
  exists [(lit "q1", lit "The answer is B");
          (lit "q2", [dq] ++ lit "ok" ++ [dq] ++ lit ",")],
         [(lit "q1", lit "T"); (lit "q2", lit "C")].
  split; [reflexivity|].
  apply (parsed_mappings_shape _ _ _ W). reflexivity.
Defined.

Lemma keys_list_dict (d : dict (str * list pyval)) :
  keys (list_dict d) = keys (heads d).
Proof. unfold keys, list_dict, heads. now rewrite !map_map. Qed.

Lemma lookup_list_dict (d : dict (str * list pyval)) (k : str) :
  lookup (list_dict d) k
  = option_map (fun sm => VList (VStr (fst sm) :: snd sm)) (lookup d k).
Proof.
  induction d as [|[k' sm] d IH]; simpl; auto. destruct (str_eqb k' k); auto.
Qed.

Lemma lookup_heads (d : dict (str * list pyval)) (k : str) :
  lookup (heads d) k = option_map fst (lookup d k).
Proof.
  induction d as [|[k' sm] d IH]; simpl; auto. destruct (str_eqb k' k); auto.
Qed.

Lemma list_entry_heads (f : str -> result str) (d : dict (str * list pyval))
  (k : str) :
  list_entry f (list_dict d) k = str_entry f (str_dict (heads d)) k.
Proof.
  unfold list_entry, str_entry, getitem.
  rewrite lookup_list_dict, lookup_str_dict, lookup_heads.
  destruct (lookup d k) as [[s more]|]; reflexivity.
Qed.

(** X8. Of a list of candidate generations only the first is used: a
    mapping of lists that begin with a text is parsed exactly as the mapping
    of those first texts. *)
Theorem list_branch_uses_first_candidate (d : dict (str * list pyval)) :
  eval_prediction (list_dict d) = eval_prediction (str_dict (heads d)).
Proof.
  destruct d as [|[k0 [s0 more0]] rest]; [reflexivity|].
  rewrite (eval_prediction_str_dict (heads ((k0, (s0, more0)) :: rest)))
    by discriminate.
  assert (eval_prediction (list_dict ((k0, (s0, more0)) :: rest))
          = list_branch (list_dict ((k0, (s0, more0)) :: rest))) as ->.
  { unfold eval_prediction, getitem. simpl. now rewrite str_eqb_refl. }
  unfold list_branch, str_branch.
  rewrite keys_str_dict, keys_list_dict.
  rewrite (dict_comp_ext _ _ _
             (fun i _ => list_entry_heads explanation_of _ i)).
  rewrite (dict_comp_ext _ _ _
             (fun i _ => list_entry_heads answer_of _ i)).
  reflexivity.
Qed.

(** ** The gold mapping *)

Lemma ground_truth_entry (mapping : dict str) (qids choices : list str)
  (idx : nat) (kv : str * str) :
  (k <- nth_item qids idx ;; c <- nth_item choices idx ;;
   v <- getitem mapping c ;; Ok (k, v)) = Ok kv ->
  nth_error qids idx = Some (fst kv)
  /\ exists c, nth_error choices idx = Some c
               /\ lookup mapping c = Some (snd kv).
Proof.
  unfold nth_item, getitem.
  destruct (nth_error qids idx) as [k|]; [|discriminate]. cbn [bind].
  destruct (nth_error choices idx) as [c|]; [|discriminate]. cbn [bind].
  destruct (lookup mapping c) as [v|] eqn:L; [|discriminate]. cbn [bind].
  intros [= <-]. simpl. eauto.
Qed.


(** X10. With distinct ids the gold mapping has exactly the ids of [qids],
    in order, and the symbol stored for the id at an index is the mapping of
    the label at that index. *)
Theorem ground_truth_entries (mapping : dict str) (qids choices : list str)
  (gold : dict str) :
  NoDup qids -> ground_truth mapping qids choices = Ok gold ->
  keys gold = qids
  /\ forall idx k, nth_error qids idx = Some k ->
                   exists c v, nth_error choices idx = Some c
                               /\ lookup mapping c = Some v
                               /\ lookup gold k = Some v.
Proof.
  intros Hnd H.
  pose proof (ground_truth_keys mapping qids choices gold Hnd H) as Hkeys.
  split; [exact Hkeys|]. intros idx k Hk.
  assert (In k (keys gold)) as Hin.
  { rewrite Hkeys. eapply nth_error_In, Hk. }
  destruct (In_keys_lookup gold k Hin) as [v Hv].
  unfold ground_truth in H.
  destruct (dict_comp_lookup _ _ _ _ H k v Hv) as [L|(j & _ & Ej)];
    [discriminate|].
  destruct (ground_truth_entry mapping qids choices j (k, v) Ej)
    as (Hj & c & Hc & Hm). simpl in Hj, Hm.
  assert (j = idx) as ->.
  { apply (proj1 (NoDup_nth_error qids) Hnd).
    - apply nth_error_Some. congruence.
    - congruence. }
  eauto.
Qed.

Lemma ground_truth_entries_witness :
  NoDup [lit "q1"; lit "q2"]
  /\ keys [(lit "q1", lit "B"); (lit "q2", lit "C")] = [lit "q1"; lit "q2"]
  /\ forall idx k,
      nth_error [lit "q1"; lit "q2"] idx = Some k ->
      exists c v, nth_error [lit "no"; lit "maybe"] idx = Some c
                  /\ lookup mapping c = Some v
                  /\ lookup [(lit "q1", lit "B"); (lit "q2", lit "C")] k
                     = Some v.
Proof.
  assert (NoDup [lit "q1"; lit "q2"]) as Hnd.
  { repeat constructor; simpl; intuition discriminate. }
  split; [exact Hnd|].
  apply (ground_truth_entries mapping [lit "q1"; lit "q2"]
           [lit "no"; lit "maybe"] _ Hnd).
  reflexivity.
Defined.

(** ** The score of a whole evaluation cell *)

Lemma mapM_Ok_inv {A B} (f : A -> result B) (l : list A) (bs : list B) :
  mapM f l = Ok bs ->
  length bs = length l /\ forall a, In a l -> exists b, f a = Ok b.
Proof.
  revert bs; induction l as [|x l IH]; intros bs H; simpl in H.
  - injection H as <-. split; auto. intros a [].
  - destruct (f x) as [b|] eqn:E; [|discriminate]. cbn [bind] in H.
    destruct (mapM f l) as [bs'|]; [|discriminate]. cbn [bind] in H.
    injection H as <-. destruct (IH bs' eq_refl) as [Hlen Hall].
    split; [simpl; lia|]. intros a [<-|Ha]; eauto.
Qed.

Lemma accuracy_Ok_inv (answers gold : dict str) (qids : list str) (q : Q) :
  accuracy answers gold qids = Ok q ->
  incl (keys answers) (keys gold) /\ qids <> [].
Proof.
  unfold accuracy. intros H.
  destruct (flags answers gold) as [fl|] eqn:F; [|discriminate].
  cbn [bind] in H. split.
  - intros k Hk. destruct (proj2 (mapM_Ok_inv _ _ _ F) k Hk) as [b Eb].
    unfold getitem in Eb. destruct (lookup answers k); [|discriminate].
    cbn [bind] in Eb. destruct (lookup gold k) eqn:L; [|discriminate].
    eapply lookup_Some_In, L.
  - intros ->. discriminate.
Qed.

Lemma evaluate_bounds (predicted : dict pyval)
  (mapping : dict str) (qids choices : list str) (q : Q) :
  wf_dict predicted ->
  evaluate predicted mapping qids choices = Ok q ->
  (0 <= q)%Q /\ (q <= 1)%Q.
Proof.
  intros W H. unfold evaluate in H.
  destruct (eval_prediction predicted) as [[e a]|] eqn:Ep; [|discriminate].
  cbn [bind snd] in H.
  destruct (ground_truth mapping qids choices) as [gold|] eqn:Eg;
    [|discriminate]. cbn [bind] in H.
  destruct (parsed_mappings_shape_keys predicted e a W Ep) as [_ Ka].
  destruct (accuracy_Ok_inv a gold qids q H) as [Hincl Hq].
  rewrite (accuracy_covered a gold qids Hincl Hq) in H. injection H as <-.
  assert (wf_dict a) as Wa by (unfold wf_dict; now rewrite Ka).
  assert (wf_dict gold) as Wg.
  { unfold ground_truth in Eg. eapply dict_comp_wf; [exact Eg | constructor]. }
  assert (incl (keys gold) qids) as Hgq.
  { intros k Hk. unfold ground_truth in Eg.
    apply (dict_comp_In_keys _ _ _ _ Eg) in Hk.
    destruct Hk as [[]|(idx & kv & _ & E & <-)].
    destruct (ground_truth_entry mapping qids choices idx kv E) as (Hn & _).
    eapply nth_error_In, Hn. }
  pose proof (filter_length_le (correct a gold) (keys a)) as L1.
  pose proof (NoDup_incl_length Wa Hincl) as L2.
  pose proof (NoDup_incl_length Wg Hgq) as L3.
  destruct qids as [|k0 qids]; [congruence|].
  unfold Qle. cbn [Qnum Qden length]. rewrite Zpos_of_nat_succ.
  cbn [length] in L3. split; lia.
Qed.

(** X11. Whenever the evaluation cell returns a score for predictions with
    distinct ids, the score lies between 0 and 1, also when [qids] repeats
    an id or the predictions cover only part of the ids. *)
Theorem evaluate_score_in_unit_interval (predicted : dict pyval)
  (mapping : dict str) (qids choices : list str) (q : Q) :
  wf_dict predicted ->
  evaluate predicted mapping qids choices = Ok q ->
  (0 <= q)%Q /\ (q <= 1)%Q.
Proof.
  intros W H. unfold evaluate in H.
  destruct (eval_prediction predicted) as [[e a]|] eqn:Ep; [|discriminate].
  cbn [bind snd] in H.
  destruct (ground_truth mapping qids choices) as [gold|] eqn:Eg;
    [|discriminate]. cbn [bind] in H.
  destruct (parsed_mappings_shape_keys predicted e a W Ep) as [_ Ka].
  destruct (accuracy_Ok_inv a gold qids q H) as [Hincl Hq].
  rewrite (accuracy_covered a gold qids Hincl Hq) in H. injection H as <-.
  assert (wf_dict a) as Wa by (unfold wf_dict; now rewrite Ka).
  assert (wf_dict gold) as Wg.
  { unfold ground_truth in Eg. eapply dict_comp_wf; [exact Eg | constructor]. }
  assert (incl (keys gold) qids) as Hgq.
  { intros k Hk. unfold ground_truth in Eg.
    apply (dict_comp_In_keys _ _ _ _ Eg) in Hk.
    destruct Hk as [[]|(idx & kv & _ & E & <-)].
    destruct (ground_truth_entry mapping qids choices idx kv E) as (Hn & _).
    eapply nth_error_In, Hn. }
  pose proof (filter_length_le (correct a gold) (keys a)) as L1.
  pose proof (NoDup_incl_length Wa Hincl) as L2.
  pose proof (NoDup_incl_length Wg Hgq) as L3.
  destruct qids as [|k0 qids]; [congruence|].
  unfold Qle. cbn [Qnum Qden length]. rewrite Zpos_of_nat_succ.
  cbn [length] in L3. split; lia.
Qed.

(** ** The neighbour mapping of cell 15 *)

Section TagMapping.

Context {order : SetOrder}.

Lemma inner_loop_entry (t : item) (train : list item)
  (neighbors : dict (list str)) :
  lookup neighbors (qid t) = Some [] ->
  exists neighbors' l',
    inner_loop t train neighbors = Ok neighbors'
    /\ lookup neighbors' (qid t) = Some l'
    /\ NoDup l'
    /\ (forall x, In x l' <-> concepts t <> [] /\ In x (map qid train))
    /\ (forall k, k <> qid t -> lookup neighbors' k = lookup neighbors k).
Proof.
  intros Hl. destruct (concepts t) as [|c cs] eqn:Hc.
  - destruct (inner_loop_untagged t train Hc neighbors Hl) as (n & E & L & O).
    exists n, []. split; [exact E|]. split; [exact L|].
    split; [constructor|]. split; [|exact O].
    intros x. simpl. split; [intros [] | intros [H _]; congruence].
  - assert (concepts t <> []) as Hc' by (rewrite Hc; discriminate).
    destruct (inner_loop_tagged t train Hc' neighbors [] Hl)
      as (n & l & E & L & N & I & O).
    exists n, l. split; [exact E|]. split; [exact L|]. split; [|split].
    + destruct train as [|x train]; [|apply N; discriminate].
      destruct l as [|y l]; [constructor|].
      exfalso. destruct (proj1 (I y) (or_introl eq_refl)) as [[]|[]].
    + intros x. rewrite I. simpl. split; [intros [[]|H]|intros [_ H]]; auto.
      split; [discriminate | exact H].
    + exact O.
Qed.

Lemma outer_loop_entries (train : list item) (tests : list item) :
  forall acc : dict (list str),
    (forall k l, lookup acc k = Some l ->
                 NoDup l /\ incl l (map qid train)) ->
    exists neighbors,
      outer_loop tests train acc = Ok neighbors
      /\ (forall k, In k (keys neighbors)
                    <-> In k (keys acc) \/ In k (map qid tests))
      /\ (forall k l, lookup neighbors k = Some l ->
                      NoDup l /\ incl l (map qid train)).
Proof.
  induction tests as [|t tests IH]; intros acc Inv.
  - exists acc. simpl. split; [reflexivity|]. split; [|exact Inv].
    intros k. tauto.
  - simpl.
    destruct (inner_loop_entry t train (setitem acc (qid t) [])
                (lookup_setitem_same acc (qid t) []))
      as (n1 & l1 & E1 & L1 & N1 & I1 & O1).
    rewrite E1. cbn [bind].
    assert (forall k, In k (keys n1) <-> In k (keys acc) \/ k = qid t) as K1.
    { intros k. rewrite <- In_keys_setitem.
      destruct (str_dec k (qid t)) as [->|Hne].
      - split; intros _.
        + eapply lookup_Some_In, lookup_setitem_same.
        + eapply lookup_Some_In, L1.
      - assert (forall d : dict (list str),
                   In k (keys d) <-> lookup d k <> None) as Hiff.
        { intros d. pose proof (lookup_None_iff d k) as Hn.
          destruct (in_dec str_dec k (keys d)); split; intros; auto; tauto. }
        split; intros H; apply Hiff; apply Hiff in H;
          [rewrite <- (O1 k Hne) | rewrite (O1 k Hne)]; exact H. }
    destruct (IH n1) as (n2 & E2 & K2 & I2).
    { intros k l Hk. destruct (str_dec k (qid t)) as [->|Hne].
      - rewrite L1 in Hk. injection Hk as <-. split; [exact N1|].
        intros x Hx. apply I1 in Hx. tauto.
      - rewrite (O1 k Hne), lookup_setitem_other in Hk by assumption.
        apply (Inv k l Hk). }
    exists n2. split; [exact E2|]. split; [|exact I2].
    intros k. rewrite K2, K1. simpl. intuition.
Qed.


Lemma tag_neighbors_entry (tests train : list item) (t : item) :
  NoDup (map qid tests) -> In t tests ->
  exists neighbors l,
    tag_neighbors tests train = Ok neighbors
    /\ lookup neighbors (qid t) = Some l
    /\ forall x, In x l <-> concepts t <> [] /\ In x (map qid train).
Proof.
  unfold tag_neighbors. generalize (@nil (str * list str)) as acc.
  induction tests as [|t0 tests IH]; intros acc Hnd Hin; [destruct Hin|].
  simpl in Hnd. apply NoDup_cons_iff in Hnd. destruct Hnd as [Hnotin Hnd].
  simpl.
  destruct (inner_loop_entry t0 train (setitem acc (qid t0) [])
              (lookup_setitem_same acc (qid t0) []))
    as (n1 & l1 & E1 & L1 & _ & I1 & _).
  rewrite E1. cbn [bind]. destruct Hin as [->|Hin].
  - destruct (outer_loop_keeps tests train (qid t) Hnotin n1) as (n2 & E2 & L2).
    exists n2, l1. split; [exact E2|]. split; [congruence | exact I1].
  - apply IH; auto.
Qed.

(** X13. As the loop is written (its condition intersects the query's tags
    with themselves and never reads the train item's tags), the entry of a
    test item lists every train id when the item has at least one tag and
    is empty when it has none. *)
Theorem tag_neighbors_by_query_tags (tests train : list item) (t : item) :
  NoDup (map qid tests) -> In t tests ->
  exists neighbors l,
    tag_neighbors tests train = Ok neighbors
    /\ lookup neighbors (qid t) = Some l
    /\ forall x, In x l <-> concepts t <> [] /\ In x (map qid train).
Proof.
  unfold tag_neighbors. generalize (@nil (str * list str)) as acc.
  induction tests as [|t0 tests IH]; intros acc Hnd Hin; [destruct Hin|].
  simpl in Hnd. apply NoDup_cons_iff in Hnd. destruct Hnd as [Hnotin Hnd].
  simpl.
  destruct (inner_loop_entry t0 train (setitem acc (qid t0) [])
              (lookup_setitem_same acc (qid t0) []))
    as (n1 & l1 & E1 & L1 & _ & I1 & _).
  rewrite E1. cbn [bind]. destruct Hin as [->|Hin].
  - destruct (outer_loop_keeps tests train (qid t) Hnotin n1) as (n2 & E2 & L2).
    exists n2, l1. split; [exact E2|]. split; [congruence | exact I1].
  - apply IH; auto.
Qed.

End TagMapping.

(** ** Sampling the shots *)






(** ** Assembling the prompt *)

Lemma add_shots_mapM (data : dict entry) (mapping : dict str)
  (shots : list str) :
  forall query,
    add_shots data mapping shots query
    = (blocks <- mapM (demonstration data mapping) shots ;;
       Ok (query ++ concat blocks)).
Proof.
  induction shots as [|shot shots IH]; intros query; simpl.
  - now rewrite app_nil_r.
  - destruct (demonstration data mapping shot) as [b|]; simpl; auto.
    rewrite IH. destruct (mapM (demonstration data mapping) shots); simpl; auto.
    now rewrite app_assoc.
Qed.

Lemma demonstration_cases (data : dict entry) (mapping : dict str) (shot : str) :
  (exists e symbol,
      lookup data shot = Some e
      /\ lookup mapping (final_decision e) = Some symbol
      /\ demonstration data mapping shot
         = Ok (QUESTION e ++ open_block ++ LONG_ANSWER e ++ mid_block
               ++ symbol ++ close_block))
  \/ ((lookup data shot = None
       \/ exists e, lookup data shot = Some e
                    /\ lookup mapping (final_decision e) = None)
      /\ demonstration data mapping shot = Raise KeyError).
Proof.
  unfold demonstration, getitem.
  destruct (lookup data shot) as [e|]; [|right; auto].
  cbn [bind]. destruct (lookup mapping (final_decision e)) as [symbol|] eqn:L.
  - left. exists e, symbol. auto.
  - right. split; [right; eauto | reflexivity].
Qed.

Lemma build_query_Ok (data : dict entry) (mapping : dict str)
  (shots : list str) (question : str) :
  (forall shot, In shot shots ->
                exists e symbol, lookup data shot = Some e
                                 /\ lookup mapping (final_decision e) = Some symbol) ->
  exists prompt, build_query data mapping shots question = Ok prompt.
Proof.
  intros H. unfold build_query. rewrite add_shots_mapM.
  assert (exists blocks, mapM (demonstration data mapping) shots = Ok blocks)
    as [blocks ->]; [|simpl; eauto].
  induction shots as [|shot shots IH]; simpl; eauto.
  destruct (H shot (or_introl eq_refl)) as (e & symbol & He & Hs).
  destruct (demonstration_cases data mapping shot)
    as [(e' & s' & _ & _ & ->)|[[Hn|(e' & He' & Hn)] _]]; try congruence.
  destruct IH as [blocks ->]; [intros; apply H; now right|]. simpl. eauto.
Qed.

(** X15. The prompt is assembled exactly when every selected shot is a key
    of the data and its [final_decision] is a key of [mapping]; any other
    selection makes the loop raise [KeyError], and nothing else can be
    raised. *)
Theorem build_query_fails_on_missing_key (data : dict entry)
  (mapping : dict str) (shots : list str) (question : str) :
  ((exists prompt, build_query data mapping shots question = Ok prompt)
   <-> forall shot, In shot shots ->
                    exists e symbol,
                      lookup data shot = Some e
                      /\ lookup mapping (final_decision e) = Some symbol)
  /\ forall err, build_query data mapping shots question = Raise err ->
                 err = KeyError.
Proof.
  split; [split|].
  - intros [prompt H] shot Hin. unfold build_query in H.
    rewrite add_shots_mapM in H.
    destruct (mapM (demonstration data mapping) shots) as [blocks|] eqn:M;
      [|discriminate].
    destruct (proj2 (mapM_Ok_inv _ _ _ M) shot Hin) as [b Eb].
    destruct (demonstration_cases data mapping shot)
      as [(e & symbol & He & Hs & _)|[_ Hr]]; [eauto | congruence].
  - apply build_query_Ok.
  - intros err H. unfold build_query in H. rewrite add_shots_mapM in H.
    destruct (mapM (demonstration data mapping) shots) as [blocks|] eqn:M;
      [discriminate|]. simpl in H. injection H as <-.
    revert M. clear. induction shots as [|shot shots IH]; simpl; [discriminate|].
    destruct (demonstration_cases data mapping shot)
      as [(e' & s' & _ & _ & ->)|[_ ->]]; simpl.
    + destruct (mapM (demonstration data mapping) shots); [discriminate|].
      simpl. auto.
    + now intros [= <-].
Qed.

Lemma build_query_fails_witness :
  exists prompt,
    build_query
      [(lit "A", {| QUESTION := lit "QA"; LONG_ANSWER := lit "because";
                    final_decision := lit "yes" |})]
      mapping [lit "A"] (lit "Q") = Ok prompt.
Proof.
  apply (proj2 (proj1 (build_query_fails_on_missing_key
                         [(lit "A", {| QUESTION := lit "QA";
                                       LONG_ANSWER := lit "because";
                                       final_decision := lit "yes" |})]
                         mapping [lit "A"] (lit "Q")))).
  intros shot [<-|[]]. do 2 eexists. split; reflexivity.
Defined.

Lemma mid_block_marker : mid_block = answer_marker ++ [sp; dq].
Proof. reflexivity. Qed.

Lemma mapping_symbols (label symbol : str) :
  lookup mapping label = Some symbol ->
  symbol = lit "A" \/ symbol = lit "B" \/ symbol = lit "C".
Proof.
  unfold mapping.
  change (lookup [(lit "yes", lit "A"); (lit "no", lit "B");
                  (lit "maybe", lit "C")] label)
    with (if str_eqb (lit "yes") label then Some (lit "A")
          else if str_eqb (lit "no") label then Some (lit "B")
          else if str_eqb (lit "maybe") label then Some (lit "C")
          else None).
  destruct (str_eqb (lit "yes") label); [intros [= <-]; auto|].
  destruct (str_eqb (lit "no") label); [intros [= <-]; auto|].
  destruct (str_eqb (lit "maybe") label); [intros [= <-]; auto|].
  discriminate.
Qed.

(** X16. A demonstration block reads back: for a shot whose
    [final_decision] is one of [yes], [no], [maybe], the parser's answer for
    the block is the symbol the cell wrote into it, whatever the question
    and the long answer contain. *)
Theorem demonstration_parses_back (data : dict entry) (shot : str) (e : entry) :
  lookup data shot = Some e ->
  In (final_decision e) (keys mapping) ->
  exists block symbol,
    demonstration data mapping shot = Ok block
    /\ lookup mapping (final_decision e) = Some symbol
    /\ answer_of block = Ok symbol.
Proof.
  intros He Hin. destruct (In_keys_lookup mapping _ Hin) as [symbol Hs].
  exists (QUESTION e ++ open_block ++ LONG_ANSWER e ++ mid_block ++ symbol
          ++ close_block), symbol.
  split; [|split; [exact Hs|]].
  - unfold demonstration, getitem. rewrite He. cbn [bind]. now rewrite Hs.
  - rewrite mid_block_marker.
    replace (QUESTION e ++ open_block ++ LONG_ANSWER e
             ++ (answer_marker ++ [sp; dq]) ++ symbol ++ close_block)
      with ((QUESTION e ++ open_block ++ LONG_ANSWER e) ++ answer_marker
            ++ ([sp; dq] ++ symbol ++ close_block))
      by (now rewrite <- !app_assoc).
    destruct (mapping_symbols _ _ Hs) as [-> | [-> | ->]];
      match goal with
      | |- answer_of (?pre ++ answer_marker ++ ?post) = _ =>
          exact (proj2 (answer_of_marked pre post eq_refl))
      end.
Qed.

Lemma demonstration_parses_back_witness :
  exists block symbol,
    demonstration
      [(lit "A", {| QUESTION := lit "Is it?";
                    LONG_ANSWER := [dq] ++ lit "answer_choice" ++ [dq]
                                   ++ lit ": B";
                    final_decision := lit "maybe" |})]
      mapping (lit "A") = Ok block
    /\ lookup mapping (lit "maybe") = Some symbol
    /\ answer_of block = Ok symbol.
Proof.
  apply (demonstration_parses_back _ (lit "A")
           {| QUESTION := lit "Is it?";
              LONG_ANSWER := [dq] ++ lit "answer_choice" ++ [dq] ++ lit ": B";
              final_decision := lit "maybe" |}).
  - reflexivity.
  - right. right. left. reflexivity.
Defined.

(** ** Cells 15 and 16 together *)

Section TagShots.

Context {order : SetOrder}.

Lemma sample_short (rng : nat -> nat) (population : list str) (k : nat) :
  length population < k -> sample rng population k = Raise ValueError.
Proof.
  intros H. unfold sample.
  destruct (k <=? length population) eqn:C; auto.
  apply Nat.leb_le in C. lia.
Qed.

(** X17. When the train split holds fewer items than [num_shots], the
    few-shot cell raises [ValueError] for every test item, tagged or not:
    no entry of the neighbour mapping can be longer than the train split. *)
Theorem few_shot_fails_on_small_train (rng : nat -> nat)
  (tests train : list item) (neighbors : dict (list str))
  (data : dict entry) (mapping : dict str) (num_shots : nat) (t : item) :
  tag_neighbors tests train = Ok neighbors ->
  In t tests -> length train < num_shots ->
  few_shot_query rng neighbors data mapping num_shots t = Raise ValueError.
Proof.
  intros E Hin Hlt.
  destruct (outer_loop_entries train tests []) as (n & En & K & I).
  { intros k l H. discriminate. }
  unfold tag_neighbors in E. rewrite En in E. injection E as ->.
  assert (In (qid t) (keys neighbors)) as Hk.
  { apply K. right. now apply in_map. }
  destruct (In_keys_lookup neighbors (qid t) Hk) as [l Hl].
  destruct (I (qid t) l Hl) as [Hnd Hincl].
  pose proof (NoDup_incl_length Hnd Hincl) as Hlen.
  rewrite length_map in Hlen.
  unfold few_shot_query, getitem. rewrite Hl. cbn [bind].
  rewrite sample_short by lia. reflexivity.
Qed.

(** X18. A test item without tags has an empty neighbour list, so the
    few-shot cell raises [ValueError] for it as soon as one shot is asked
    for. *)
Theorem few_shot_fails_on_untagged_item (rng : nat -> nat)
  (tests train : list item) (neighbors : dict (list str))
  (data : dict entry) (mapping : dict str) (num_shots : nat) (t : item) :
  NoDup (map qid tests) ->
  tag_neighbors tests train = Ok neighbors ->
  In t tests -> concepts t = [] -> 0 < num_shots ->
  few_shot_query rng neighbors data mapping num_shots t = Raise ValueError.
Proof.
  intros Hnd E Hin Hc Hpos.
  destruct (tag_neighbors_entry tests train t Hnd Hin) as (n & l & En & Hl & I).
  rewrite En in E. injection E as ->.
  assert (l = []) as ->.
  { destruct l as [|x l]; auto.
    destruct (proj1 (I x) (or_introl eq_refl)) as [H _]. congruence. }
  unfold few_shot_query, getitem. rewrite Hl. cbn [bind].
  rewrite sample_short by (simpl; lia). reflexivity.
Qed.


End TagShots.

(** ** The loops that collect the answers *)

Section Collected.

Variable answer : nat -> item -> pyval.

Lemma predict_loop_wf (tests : list item) :
  forall (i : nat) (acc : dict pyval),
    wf_dict acc -> wf_dict (predict_loop answer i tests acc).
Proof.
  induction tests as [|t tests IH]; intros i acc W; simpl; auto.
  apply IH, setitem_wf, W.
Qed.

Lemma predict_loop_In_keys (tests : list item) :
  forall (i : nat) (acc : dict pyval) (k : str),
    In k (keys (predict_loop answer i tests acc))
    <-> In k (keys acc) \/ In k (map qid tests).
Proof.
  induction tests as [|t tests IH]; intros i acc k; simpl; [tauto|].
  rewrite IH, In_keys_setitem. intuition.
Qed.

Lemma predict_loop_other (tests : list item) :
  forall (i : nat) (acc : dict pyval) (k : str),
    ~ In k (map qid tests) ->
    lookup (predict_loop answer i tests acc) k = lookup acc k.
Proof.
  induction tests as [|t tests IH]; intros i acc k Hk; simpl; auto.
  simpl in Hk. rewrite IH by tauto. apply lookup_setitem_other. intuition.
Qed.

Lemma predict_loop_last_write (tests : list item) :
  forall (i0 : nat) (acc : dict pyval) (i : nat) (t : item),
    nth_error tests i = Some t ->
    (forall j t', i < j -> nth_error tests j = Some t' -> qid t' <> qid t) ->
    lookup (predict_loop answer i0 tests acc) (qid t)
    = Some (answer (i0 + i) t).
Proof.
  induction tests as [|t0 tests IH]; intros i0 acc i t Hi Hlast.
  - destruct i; discriminate.
  - destruct i as [|i]; simpl in Hi.
    + injection Hi as ->. simpl. rewrite predict_loop_other.
      * rewrite Nat.add_0_r. apply lookup_setitem_same.
      * intros Hin. apply in_map_iff in Hin. destruct Hin as (t' & Eq & Hin').
        destruct (In_nth_error _ _ Hin') as [j Hj].
        apply (Hlast (S j) t'); [lia | exact Hj | exact Eq].
    + simpl. rewrite (IH (S i0) _ i t Hi).
      * f_equal. f_equal. lia.
      * intros j t' Hj Ht'. apply (Hlast (S j) t'); [lia | exact Ht'].
Qed.

Lemma predict_loop_keys (tests : list item) :
  forall (i : nat) (acc : dict pyval),
    NoDup (keys acc ++ map qid tests) ->
    keys (predict_loop answer i tests acc) = keys acc ++ map qid tests.
Proof.
  induction tests as [|t tests IH]; intros i acc Hnd; simpl.
  - now rewrite app_nil_r.
  - simpl in Hnd.
    assert (~ In (qid t) (keys acc)) as Hfresh.
    { intros Hin. apply NoDup_remove_2 in Hnd. apply Hnd, in_or_app. now left. }
    rewrite IH; rewrite (keys_setitem_fresh acc (qid t) _ Hfresh);
      rewrite <- app_assoc; auto.
Qed.

(** X20. The collected mapping has one entry per test id, and the entry of
    an id is the answer of the last batch that carries it: a later batch
    with the same id overwrites the earlier answer.  With distinct ids the
    keys are the test ids in loader order. *)
Theorem predict_keeps_last_answer (tests : list item) :
  wf_dict (predict answer tests)
  /\ (forall k, In k (keys (predict answer tests)) <-> In k (map qid tests))
  /\ (forall i t,
         nth_error tests i = Some t ->
         (forall j t', i < j -> nth_error tests j = Some t' ->
                       qid t' <> qid t) ->
         lookup (predict answer tests) (qid t) = Some (answer i t))
  /\ (NoDup (map qid tests) -> keys (predict answer tests) = map qid tests).
Proof.
  unfold predict. split; [|split; [|split]].
  - apply predict_loop_wf. constructor.
  - intros k. rewrite predict_loop_In_keys. simpl. tauto.
  - intros i t Hi Hlast.
    apply (predict_loop_last_write tests 0 [] i t Hi Hlast).
  - intros Hnd. now rewrite predict_loop_keys.
Qed.

Lemma demo_loop_later (tests : list item) :
  forall (i : nat) (acc : dict pyval),
    demo_loop answer (S i) tests acc = acc.
Proof.
  induction tests as [|t tests IH]; intros i acc; simpl; auto.
Qed.

(** X21. Cell 4 keeps the answer of the first batch only, and the closing
    expression of the answer cells,
    [predicted[list(predicted.keys())[0]]], raises [IndexError] exactly
    when the test loader is empty. *)
Theorem closing_expression_needs_a_batch (tests : list item) :
  predict_demo answer tests
  = match tests with
    | [] => []
    | t :: _ => [(qid t, answer 0 t)]
    end
  /\ (first_entry (predict_demo answer tests) = Raise IndexError
      <-> tests = [])
  /\ (first_entry (predict answer tests) = Raise IndexError <-> tests = []).
Proof.
  assert (predict_demo answer tests
          = match tests with
            | [] => []
            | t :: _ => [(qid t, answer 0 t)]
            end) as E.
  { unfold predict_demo. destruct tests as [|t tests]; simpl; auto.
    apply demo_loop_later. }
  split; [exact E|]. split.
  - rewrite E. destruct tests as [|t tests].
    + split; reflexivity.
    + unfold first_entry, getitem. simpl. rewrite str_eqb_refl. simpl.
      split; discriminate.
  - destruct tests as [|t tests]; [split; reflexivity|].
    split; [|discriminate]. intros H. exfalso.
    assert (In (qid t) (keys (predict answer (t :: tests)))) as Hin.
    { unfold predict. apply predict_loop_In_keys. right. now left. }
    unfold first_entry in H.
    destruct (keys (predict answer (t :: tests))) as [|k ks] eqn:K;
      [destruct Hin|].
    cbn [first bind] in H.
    destruct (In_keys_lookup (predict answer (t :: tests)) k) as [v Hv].
    { rewrite K. now left. }
    unfold getitem in H. rewrite Hv in H. discriminate.
Qed.

(** X22. In the notebook's pipeline (predictions collected over the test
    loader, gold built from the same ids) the accuracy expression cannot
    raise: once parsing and the gold mapping succeed, a score between 0 and
    1 is returned. *)
Theorem pipeline_score_is_returned (mapping : dict str)
  (tests : list item) (choices : list str) (e a gold : dict str) :
  eval_prediction (predict answer tests) = Ok (e, a) ->
  ground_truth mapping (map qid tests) choices = Ok gold ->
  exists q,
    evaluate (predict answer tests) mapping (map qid tests) choices = Ok q
    /\ (0 <= q)%Q /\ (q <= 1)%Q.
Proof.
  intros Ep Eg.
  assert (wf_dict (predict answer tests)) as W
    by (apply predict_loop_wf; constructor).
  destruct (parsed_mappings_shape_keys _ e a W Ep) as [_ Ka].
  assert (incl (keys a) (keys gold)) as Hincl.
  { intros k Hk. rewrite Ka in Hk.
    apply predict_loop_In_keys in Hk. destruct Hk as [[]|Hk].
    destruct (In_nth_error _ _ Hk) as [idx Hidx].
    assert (idx < length (map qid tests)) as Hlt
      by (apply nth_error_Some; congruence).
    unfold ground_truth in Eg.
    destruct (dict_comp_Ok_inv _ _ _ _ Eg idx) as [kv Ekv].
    { apply in_seq. lia. }
    apply (dict_comp_In_keys _ _ _ _ Eg). right. exists idx, kv.
    split; [apply in_seq; lia|]. split; [exact Ekv|].
    destruct (ground_truth_entry _ _ _ _ _ Ekv) as [Hq _]. congruence. }
  assert (map qid tests <> []) as Hne.
  { destruct tests; [discriminate Ep | discriminate]. }
  assert (exists q, evaluate (predict answer tests) mapping (map qid tests)
                      choices = Ok q) as [q Hq].
  { unfold evaluate. rewrite Ep, Eg. cbn [bind snd].
    rewrite (accuracy_covered a gold _ Hincl Hne). eauto. }
  exists q. split; [exact Hq|].
  apply (evaluate_bounds _ _ _ _ q W Hq).
Qed.

End Collected.

(** ** The tag set of cell 14 *)

Section TagSet.

Context {order : SetOrder}.



End TagSet.

(** ** Instances of the further properties *)

Lemma evaluate_score_witness :
  wf_dict [(lit "q1", VStr (generation (lit "A")))]
  /\ evaluate [(lit "q1", VStr (generation (lit "A")))] mapping
       [lit "q1"; lit "q1"] [lit "yes"; lit "yes"] = Ok (1 # 2)%Q
  /\ (0 <= 1 # 2)%Q /\ (1 # 2 <= 1)%Q.
Proof.
  assert (wf_dict [(lit "q1", VStr (generation (lit "A")))]) as W.
  { unfold wf_dict. simpl. repeat constructor. simpl. tauto. }
  split; [exact W|]. split; [reflexivity|].
  apply (evaluate_score_in_unit_interval
           [(lit "q1", VStr (generation (lit "A")))] mapping
           [lit "q1"; lit "q1"] [lit "yes"; lit "yes"] (1 # 2)%Q W).
  reflexivity.
Defined.

Lemma tag_neighbors_by_query_tags_witness :
  exists neighbors l,
    @tag_neighbors nodup_order [query] [item_A; item_B] = Ok neighbors
    /\ lookup neighbors (qid query) = Some l
    /\ forall x, In x l <-> concepts query <> []
                            /\ In x (map qid [item_A; item_B]).
Proof.
  apply (@tag_neighbors_by_query_tags nodup_order [query] [item_A; item_B] query).
  - repeat constructor. simpl. tauto.
  - left. reflexivity.
Defined.

Lemma few_shot_small_train_witness :
  @few_shot_query (fun i => i) [(lit "q", [lit "A"; lit "B"])] [] mapping 3 query
  = Raise ValueError.
Proof.
  apply (@few_shot_fails_on_small_train nodup_order (fun i => i) [query]
           [item_A; item_B] [(lit "q", [lit "A"; lit "B"])] [] mapping 3 query).
  - reflexivity.
  - left. reflexivity.
  - simpl. lia.
Defined.

Lemma few_shot_untagged_witness :
  few_shot_query (fun i => i) [(lit "u", [])] [] mapping 1
    {| question := lit "Q"; concepts := []; qid := lit "u" |}
  = Raise ValueError.
Proof.
  apply (@few_shot_fails_on_untagged_item nodup_order (fun i => i)
           [{| question := lit "Q"; concepts := []; qid := lit "u" |}]
           [item_A; item_B] [(lit "u", [])] [] mapping 1
           {| question := lit "Q"; concepts := []; qid := lit "u" |}).
  - repeat constructor. simpl. tauto.
  - reflexivity.
  - left. reflexivity.
  - reflexivity.
  - lia.
Defined.


Lemma pipeline_score_witness :
  exists q,
    evaluate (predict (fun _ _ => VStr (generation (lit "A"))) [query]) mapping
      (map qid [query]) [lit "yes"] = Ok q
    /\ (0 <= q)%Q /\ (q <= 1)%Q.
Proof.
  apply (pipeline_score_is_returned (fun _ _ => VStr (generation (lit "A")))
           mapping [query] [lit "yes"]
           [(lit "q", [dq] ++ lit "ok" ++ [dq] ++ lit ",")]
           [(lit "q", lit "A")] [(lit "q", lit "A")]);
    reflexivity.
Defined.


Lemma predict_last_answer_witness :
  lookup (predict (fun i _ => VInt (Z.of_nat i)) [query; item_A; query])
    (qid query) = Some (VInt 2).
Proof.
  apply (proj1 (proj2 (proj2 (predict_keeps_last_answer
                                (fun i _ => VInt (Z.of_nat i))
                                [query; item_A; query]))) 2 query).
  - reflexivity.
  - intros [|[|[|j]]] t' Hj Ht'; simpl in Ht'; try lia.
    destruct j; discriminate Ht'.
Defined.
